(** * EMSA-PSS encoding and verification (Botan, [pk_pad/emsa_pssr/pssr.cpp])

    A shallow embedding of [pss_encode], [pss_verify] and of the two
    adapters [PSSR] and [PSSR_Raw], together with the properties the
    specification states about them.

    Conventions.
    - [size_t] is a 64-bit unsigned integer: a [Z] whose arithmetic is
      reduced modulo [2^64] by the operators [+w], [-w] and [*w].
    - [uint8_t] is [byte]; [secure_vector<uint8_t>] is [list byte].
    - A [HashFunction] is a stateful object; the code is written in a
      state monad over it, with the three outcomes a C++ call can have:
      it returns, it throws, or it leaves the defined behaviour of the
      language (an access outside a vector). *)

From Stdlib Require Import ZArith List String Lia.
From Stdlib Require Strings.Byte.
From stdpp Require Import base list strings pretty.
From coqutil Require Import Byte.
Import ListNotations.

Local Open Scope Z_scope.

(** [lia] is to see through division and remainder by constants. *)
Ltac Zify.zify_post_hook ::= Z.div_mod_to_equations.

(** ** Machine integers *)

Module SizeT.

Definition modulus : Z := 2 ^ 64.

Definition wrap (z : Z) : Z := z mod modulus.

Definition add (a b : Z) : Z := wrap (a + b).
Definition sub (a b : Z) : Z := wrap (a - b).
Definition mul (a b : Z) : Z := wrap (a * b).

End SizeT.

Infix "+w" := SizeT.add (at level 50, left associativity).
Infix "-w" := SizeT.sub (at level 50, left associativity).
Infix "*w" := SizeT.mul (at level 40, left associativity).

(** [v.size()] *)
Definition size (v : list byte) : Z := Z.of_nat (length v).

(** ** Bytes *)

#[global] Instance byte_eq_dec : EqDecision byte := Strings.Byte.byte_eq_dec.

Definition x00 : byte := Byte.x00.
Definition x01 : byte := Byte.x01.
Definition xbc : byte := Byte.xbc.

(** [b &= 0xFF >> n] on a [uint8_t]: the operand is promoted to [int],
    the result is truncated back to eight bits. *)
Definition and_ff_shr (b : byte) (n : Z) : byte :=
  byte.of_Z (Z.land (byte.unsigned b) (Z.shiftr 255 n)).

(** [xor_buf(out, in, n)] with [n] the length of the shorter list. *)
Definition xor_buf (out inp : list byte) : list byte :=
  zip_with byte.xor out inp.

(** Modelled from the spec: [high_bit] of [bit_ops.h], which is not part of
    the translation unit.  Step 2 of verification compares the extra high
    bits with "the number of leading zero bits actually present in the first
    byte", computed as [8 - high_bit(b)]: [high_bit] is the 1-based index of
    the most significant set bit, and 0 for a zero byte. *)
Definition high_bit (b : byte) : Z :=
  let n := byte.unsigned b in
  if n =? 0 then 0 else Z.log2 n + 1.

(** Modelled from the spec: [constant_time_compare(x, y, len)], an equality
    test on the first [len] bytes whose running time does not depend on the
    data.  Only its result is modelled. *)
Definition constant_time_compare (x y : list byte) (len : Z) : bool :=
  bool_decide (take (Z.to_nat len) x = take (Z.to_nat len) y).

(** ** Outcomes and the state monad *)

Inductive Exception : Type :=
| Encoding_Error (what : string).

Inductive outcome (A : Type) : Type :=
| Returns (a : A)
| Throws (e : Exception)
| Undefined.
Arguments Returns {A} a.
Arguments Throws {A} e.
Arguments Undefined {A}.

Definition M (S A : Type) : Type := S -> outcome A * S.

Definition ret {S A} (a : A) : M S A := fun s => (Returns a, s).

Definition throw {S A} (e : Exception) : M S A := fun s => (Throws e, s).

Definition lift {S A} (o : outcome A) : M S A := fun s => (o, s).

Definition bind {S A B} (m : M S A) (f : A -> M S B) : M S B :=
  fun s =>
    match m s with
    | (Returns a, s') => f a s'
    | (Throws e, s') => (Throws e, s')
    | (Undefined, s') => (Undefined, s')
    end.

Declare Scope cpp_scope.
Delimit Scope cpp_scope with cpp.
Notation "'let*' x ':=' m 'in' k" := (bind m (fun x => k))
  (at level 10, x name, m at level 100, k at level 200) : cpp_scope.
Notation "'do' m 'then' k" := (bind m (fun _ => k))
  (at level 10, m at level 100, k at level 200) : cpp_scope.
Local Open Scope cpp_scope.

(** ** Vectors and raw memory ranges *)

(** [v[i]] as an rvalue. *)
Definition vec_get (v : list byte) (i : Z) : outcome byte :=
  match v !! Z.to_nat i with
  | Some b => Returns b
  | None => Undefined
  end.

(** [v[i] = b]. *)
Definition vec_set (v : list byte) (i : Z) (b : byte) : outcome (list byte) :=
  if i <? size v then Returns (<[Z.to_nat i := b]> v) else Undefined.

(** The [len] bytes read through the pointer [&v[off]]. *)
Definition read_mem (v : list byte) (off len : Z) : outcome (list byte) :=
  if off + len <=? size v
  then Returns (take (Z.to_nat len) (drop (Z.to_nat off) v))
  else Undefined.

(** The bytes [data] written through the pointer [&v[off]]. *)
Definition write_mem (v : list byte) (off : Z) (data : list byte) : outcome (list byte) :=
  if off + size data <=? size v
  then Returns (take (Z.to_nat off) v ++ data ++ drop (Z.to_nat (off + size data)) v)
  else Undefined.

(** Modelled from the spec: [buffer_insert(buf, buf_offset, input)] of
    [secmem.h], which is not part of the translation unit.  The spec uses it
    to "copy" a vector into a larger one at an offset (the salt after the
    separator, [H] after the masked region, the block after its zero
    padding); the model is defined where the copy fits. *)
Definition buffer_insert (buf : list byte) (buf_offset : Z) (input : list byte)
  : outcome (list byte) :=
  write_mem buf buf_offset input.

(** [secure_vector<uint8_t> v(n)]: [n] zero bytes. *)
Definition zero_vector (n : Z) : list byte := replicate (Z.to_nat n) x00.

(** ** The hash function interface *)

(** Modelled from the spec: the hash function contract.  The abstract class
    [HashFunction] is declared outside this translation unit; the contract
    gives it an [output_length()], an [update(bytes)] and a [final()] that
    returns a digest of [output_length()] bytes and resets the state.  The
    digest is a function of everything fed to [update] since the last
    [final]. *)
Class HashAlgorithm : Type := {
  output_length : nat;
  digest : list byte -> list byte;
  digest_length : forall m, length (digest m) = output_length;
  output_length_pos : (0 < output_length)%nat
}.

(** The state of a hash object: the bytes buffered since the last [final],
    and the number of [update] and [final] calls made on it so far (the
    counter is there to tell a hash object that was used from one that was
    not). *)
Record HashFunction : Type := mkHash {
  buffered : list byte;
  calls : nat
}.

Section Hash.
Context {HA : HashAlgorithm}.

(** [hash.update(data)] *)
Definition hash_update (data : list byte) : M HashFunction unit :=
  fun h => (Returns tt, {| buffered := buffered h ++ data; calls := S (calls h) |}).

(** [hash.final()] *)
Definition hash_final : M HashFunction (list byte) :=
  fun h => (Returns (digest (buffered h)), {| buffered := []; calls := S (calls h) |}).

(** [for(size_t i = 0; i != n; ++i) hash.update(0);] *)
Fixpoint hash_update_zeros (n : nat) : M HashFunction unit :=
  match n with
  | O => ret tt
  | S n' => do hash_update [x00] then hash_update_zeros n'
  end.

(** Modelled from the spec: [hash.update_be(counter)] for the 32-bit counter
    of MGF1, its four bytes in big-endian order. *)
Definition be32 (counter : Z) : list byte :=
  [byte.of_Z (Z.shiftr counter 24); byte.of_Z (Z.shiftr counter 16);
   byte.of_Z (Z.shiftr counter 8); byte.of_Z counter].

(** Modelled from the spec: the loop of [mgf1_mask] ([mgf1.cpp] is not part
    of the translation unit).  The mask generation contract is the standard
    MGF1 construction: repeated hash invocations over the seed followed by a
    4-byte big-endian counter, XORed in place over the buffer.  Every round
    consumes at least one byte of [out], so [length out] rounds are enough. *)
Fixpoint mgf1_loop (fuel : nat) (seed out : list byte) (counter : Z)
  : M HashFunction (list byte) :=
  match fuel with
  | O => ret out
  | S fuel' =>
      match out with
      | [] => ret []
      | _ :: _ =>
          do hash_update seed then
          do hash_update (be32 counter) then
          let* buffer := hash_final in
          let xored := Nat.min (length buffer) (length out) in
          let* rest := mgf1_loop fuel' seed (drop xored out) ((counter + 1) mod 2 ^ 32) in
          ret (xor_buf (take xored out) buffer ++ rest)
      end
  end.

(** Modelled from the spec: [mgf1_mask(hash, in, in_len, &buf[0], out_len)].
    [inp] holds the [in_len] seed bytes; the first [out_len] bytes of [buf]
    are masked in place.  In [pss_verify] the seed lies in the same vector as
    the masked range, behind it: the two ranges do not overlap, so the seed
    is read once. *)
Definition mgf1_mask (inp : list byte) (buf : list byte) (out_len : Z)
  : M HashFunction (list byte) :=
  let* out := lift (read_mem buf 0 out_len) in
  let* masked := mgf1_loop (length out) inp out 0 in
  lift (write_mem buf 0 masked).

(** ** PSSR Encode Operation *)

Definition pss_encode (msg salt : list byte) (output_bits : Z)
  : M HashFunction (list byte) :=
  let HASH_SIZE := Z.of_nat output_length in
  let SALT_SIZE := size salt in
  if negb (size msg =? HASH_SIZE) then
    throw (Encoding_Error "Cannot encode PSS string, input length invalid for hash")
  else if output_bits <? 8 *w HASH_SIZE +w 8 *w SALT_SIZE +w 9 then
    throw (Encoding_Error "Cannot encode PSS string, output length too small")
  else
    let output_length := (output_bits +w 7) / 8 in
    do hash_update_zeros 8 then
    do hash_update msg then
    do hash_update salt then
    let* H := hash_final in
    let EM := zero_vector output_length in
    let* EM := lift (vec_set EM (output_length -w HASH_SIZE -w SALT_SIZE -w 2) x01) in
    let* EM := lift (buffer_insert EM (output_length -w 1 -w HASH_SIZE -w SALT_SIZE) salt) in
    let* seed := lift (read_mem H 0 HASH_SIZE) in
    let* EM := mgf1_mask seed EM (output_length -w HASH_SIZE -w 1) in
    let* EM0 := lift (vec_get EM 0) in
    let* EM := lift (vec_set EM 0
                  (and_ff_shr EM0 (8 *w ((output_bits +w 7) / 8) -w output_bits))) in
    let* EM := lift (buffer_insert EM (output_length -w 1 -w HASH_SIZE) H) in
    let* EM := lift (vec_set EM (output_length -w 1) xbc) in
    ret EM.

(** ** PSSR Decode/Verify Operation *)

(** The separator scan
    [for(size_t j = 0; j != DB_size; ++j)]: [None] when the loop returns
    [false], otherwise the value of [salt_offset] when the loop is left. *)
Fixpoint scan_separator (DB : list byte) (j : Z) : option Z :=
  match DB with
  | [] => Some 0
  | b :: DB' =>
      if bool_decide (b = x01) then Some (j +w 1)
      else if bool_decide (b = x00) then scan_separator DB' (j +w 1)
      else None
  end.

(** Lines 59 to 93: the structural checks, the left padding and the
    unmasking of [DB] inside [coded].  [None] stands for an early
    [return false]; otherwise the buffer [coded] after unmasking and
    [DB_size] are handed on. *)
Definition pss_verify_unmask (pss_repr message_hash : list byte) (key_bits : Z)
  : M HashFunction (option (list byte * Z)) :=
  let HASH_SIZE := Z.of_nat output_length in
  let KEY_BYTES := (key_bits +w 7) / 8 in
  if key_bits <? 8 *w HASH_SIZE +w 9 then ret None
  else if negb (size message_hash =? HASH_SIZE) then ret None
  else if (KEY_BYTES <? size pss_repr) || (size pss_repr <=? 1) then ret None
  else
    let* last := lift (vec_get pss_repr (size pss_repr -w 1)) in
    if negb (bool_decide (last = xbc)) then ret None
    else
      let* coded :=
        (if size pss_repr <? KEY_BYTES
         then lift (buffer_insert (zero_vector KEY_BYTES)
                      (KEY_BYTES -w size pss_repr) pss_repr)
         else ret pss_repr) in
      let TOP_BITS := 8 *w ((key_bits +w 7) / 8) -w key_bits in
      let* coded0 := lift (vec_get coded 0) in
      if 8 -w high_bit coded0 <? TOP_BITS then ret None
      else
        let DB_size := size coded -w HASH_SIZE -w 1 in
        let H_size := HASH_SIZE in
        let* H := lift (read_mem coded DB_size H_size) in
        let* coded := mgf1_mask H coded DB_size in
        let* DB0 := lift (vec_get coded 0) in
        let* coded := lift (vec_set coded 0 (and_ff_shr DB0 TOP_BITS)) in
        ret (Some (coded, DB_size)).

(** Lines 95 to 120: the separator scan, the recomputation of the hash and
    the comparison.  The second component of the result is the value stored
    through [out_salt_size], if a store happened. *)
Definition pss_verify_check (coded : list byte) (DB_size : Z)
    (message_hash : list byte) (out_salt_size : bool)
  : M HashFunction (bool * option Z) :=
  let HASH_SIZE := Z.of_nat output_length in
  let* DB := lift (read_mem coded 0 DB_size) in
  match scan_separator DB 0 with
  | None => ret (false, None)
  | Some salt_offset =>
      if salt_offset =? 0 then ret (false, None)
      else
        let salt_size := DB_size -w salt_offset in
        do hash_update_zeros 8 then
        do hash_update message_hash then
        let* salt := lift (read_mem coded salt_offset salt_size) in
        do hash_update salt then
        let* H2 := hash_final in
        let* H := lift (read_mem coded DB_size HASH_SIZE) in
        let ok := constant_time_compare H H2 HASH_SIZE in
        ret (ok, if out_salt_size && ok then Some salt_size else None)
  end.

(** [pss_verify(hash, pss_repr, message_hash, key_bits, out_salt_size)];
    [out_salt_size] tells whether the pointer is non-null. *)
Definition pss_verify (pss_repr message_hash : list byte) (key_bits : Z)
    (out_salt_size : bool)
  : M HashFunction (bool * option Z) :=
  let* r := pss_verify_unmask pss_repr message_hash key_bits in
  match r with
  | None => ret (false, None)
  | Some (coded, DB_size) => pss_verify_check coded DB_size message_hash out_salt_size
  end.

End Hash.

(** ** The adapters *)

(** The hashing variant [PSSR]. *)
Module PSSR.

Record t : Type := mk {
  m_hash : HashFunction;
  m_salt_size : Z;
  m_required_salt_len : bool
}.

Section Methods.
Context {HA : HashAlgorithm}.

(** Running a computation on the owned hash object [*m_hash]. *)
Definition on_m_hash {A} (m : M HashFunction A) : M t A :=
  fun this =>
    let (r, h) := m (m_hash this) in
    (r, {| m_hash := h; m_salt_size := m_salt_size this;
           m_required_salt_len := m_required_salt_len this |}).

(** [PSSR::PSSR(hash)] *)
Definition create (hash : HashFunction) : t :=
  {| m_hash := hash; m_salt_size := Z.of_nat output_length;
     m_required_salt_len := false |}.

(** [PSSR::PSSR(hash, salt_size)] *)
Definition create_with_salt (hash : HashFunction) (salt_size : Z) : t :=
  {| m_hash := hash; m_salt_size := salt_size; m_required_salt_len := true |}.

Definition update (input : list byte) : M t unit :=
  on_m_hash (hash_update input).

Definition raw_data : M t (list byte) :=
  on_m_hash hash_final.

(** [rng.random_vec(m_salt_size)] is the argument [random_vec]. *)
Definition encoding_of (msg : list byte) (output_bits : Z) (random_vec : Z -> list byte)
  : M t (list byte) :=
  fun this =>
    let salt := random_vec (m_salt_size this) in
    on_m_hash (pss_encode msg salt output_bits) this.

Definition verify (coded raw : list byte) (key_bits : Z) : M t bool :=
  fun this =>
    let salt_size := 0 in
    (let* r := on_m_hash (pss_verify coded raw key_bits true) in
     let ok := fst r in
     let salt_size := match snd r with Some v => v | None => salt_size end in
     if m_required_salt_len this && negb (salt_size =? m_salt_size this)
     then ret false
     else ret ok) this.

(** [PSSR::name()]; [hash_name] is the string [m_hash->name()] and
    [std::to_string] of a [size_t] is its decimal notation. *)
Definition name (hash_name : string) (this : t) : string :=
  "EMSA4(" +:+ hash_name +:+ ",MGF1," +:+ pretty (Z.to_N (m_salt_size this)) +:+ ")".

End Methods.
End PSSR.

(** The raw-buffering variant [PSSR_Raw]. *)
Module PSSR_Raw.

Record t : Type := mk {
  m_hash : HashFunction;
  m_salt_size : Z;
  m_required_salt_len : bool;
  m_msg : list byte
}.

Section Methods.
Context {HA : HashAlgorithm}.

Definition on_m_hash {A} (m : M HashFunction A) : M t A :=
  fun this =>
    let (r, h) := m (m_hash this) in
    (r, {| m_hash := h; m_salt_size := m_salt_size this;
           m_required_salt_len := m_required_salt_len this;
           m_msg := m_msg this |}).

(** [PSSR_Raw::PSSR_Raw(hash)] *)
Definition create (hash : HashFunction) : t :=
  {| m_hash := hash; m_salt_size := Z.of_nat output_length;
     m_required_salt_len := false; m_msg := [] |}.

(** [PSSR_Raw::PSSR_Raw(hash, salt_size)] *)
Definition create_with_salt (hash : HashFunction) (salt_size : Z) : t :=
  {| m_hash := hash; m_salt_size := salt_size;
     m_required_salt_len := true; m_msg := [] |}.

(** [m_msg.insert(m_msg.end(), input, input + length)] *)
Definition update (input : list byte) : M t unit :=
  fun this =>
    (Returns tt,
     {| m_hash := m_hash this; m_salt_size := m_salt_size this;
        m_required_salt_len := m_required_salt_len this;
        m_msg := m_msg this ++ input |}).

(** [std::swap(ret, m_msg)] with [ret] empty, then the length check. *)
Definition raw_data : M t (list byte) :=
  fun this =>
    let ret_ := m_msg this in
    let this' := {| m_hash := m_hash this; m_salt_size := m_salt_size this;
                    m_required_salt_len := m_required_salt_len this;
                    m_msg := [] |} in
    if negb (size ret_ =? Z.of_nat output_length) then
      throw (Encoding_Error "PSSR_Raw Bad input length, did not match hash") this'
    else ret ret_ this'.

Definition encoding_of (msg : list byte) (output_bits : Z) (random_vec : Z -> list byte)
  : M t (list byte) :=
  fun this =>
    let salt := random_vec (m_salt_size this) in
    on_m_hash (pss_encode msg salt output_bits) this.

Definition verify (coded raw : list byte) (key_bits : Z) : M t bool :=
  fun this =>
    let salt_size := 0 in
    (let* r := on_m_hash (pss_verify coded raw key_bits true) in
     let ok := fst r in
     let salt_size := match snd r with Some v => v | None => salt_size end in
     if m_required_salt_len this && negb (salt_size =? m_salt_size this)
     then ret false
     else ret ok) this.

(** [PSSR_Raw::name()] *)
Definition name (hash_name : string) (this : t) : string :=
  "PSSR_Raw(" +:+ hash_name +:+ ",MGF1," +:+ pretty (Z.to_N (m_salt_size this)) +:+ ")".

End Methods.
End PSSR_Raw.

(** ** Notions used to state the properties *)

(** [v[0] &= 0xFF >> n] on a whole vector. *)
Definition clear_top (n : Z) (v : list byte) : list byte :=
  match v with
  | [] => []
  | b :: v' => and_ff_shr b n :: v'
  end.

(** The number of unused high bits in the first byte of a block of
    [bits] bits. *)
Definition top_bits (bits : Z) : Z := 8 * ((bits + 7) / 8) - bits.

(** A computation that never throws, whatever the state it starts from. *)
Definition no_throw {S A} (m : M S A) : Prop :=
  forall s e, fst (m s) <> Throws e.

(** The unsigned integer a block stands for, most significant byte first:
    what the signature operation makes of the encoded block. *)
Definition be_value (v : list byte) : Z :=
  fold_left (fun acc b => acc * 256 + byte.unsigned b) v 0.

(** A sequence of calls of one method, one per element of a list. *)
Fixpoint for_each {S A} (f : A -> M S unit) (l : list A) : M S unit :=
  match l with
  | [] => ret tt
  | a :: l' => do f a then for_each f l'
  end.

Section Specification.
Context {HA : HashAlgorithm}.

(** The pure mask of MGF1: the digests of [seed ++ be32 counter] for
    consecutive counters, cut to the length asked for. *)
Fixpoint mgf1_blocks (n : nat) (seed : list byte) (counter : Z) : list byte :=
  match n with
  | O => []
  | S n' => digest (seed ++ be32 counter)
              ++ mgf1_blocks n' seed ((counter + 1) mod 2 ^ 32)
  end.

Definition MGF1 (seed : list byte) (len : nat) : list byte :=
  take len (mgf1_blocks len seed 0).

(** The data block before masking: zero padding, separator, salt. *)
Definition pss_DB (salt : list byte) (output_bits : Z) : list byte :=
  replicate (Z.to_nat ((output_bits + 7) / 8 - Z.of_nat output_length - size salt - 2)) x00
    ++ x01 :: salt.

(** [H = Hash(0x00 * 8 || digest || salt)] *)
Definition pss_H (msg salt : list byte) : list byte :=
  digest (replicate 8 x00 ++ msg ++ salt).

End Specification.

(** ** A small hash algorithm to run the code on *)

(** A two-byte checksum; it stands for the hash function only where the
    code is run on concrete blocks. *)
Definition toy_digest (m : list byte) : list byte :=
  let s := fold_left (fun acc b => (acc * 31 + byte.unsigned b + 7) mod 65536) m 1 in
  [byte.of_Z (Z.shiftr s 8); byte.of_Z s].

Definition toy_hash : HashAlgorithm :=
  {| output_length := 2;
     digest := toy_digest;
     digest_length := fun _ => eq_refl;
     output_length_pos := le_S 1 1 (le_n 1) |}.

(** A hash object on which nothing was called yet. *)
Definition fresh_hash : HashFunction := {| buffered := []; calls := 0 |}.

Definition t_msg : list byte := [Byte.x12; Byte.x34].
Definition t_salt : list byte := [Byte.xaa; Byte.x55; Byte.x0f].

(** [pss_encode] of [t_msg] with [t_salt] for 60 bits and with the toy hash. *)
Definition t_block : list byte :=
  [Byte.x0e; Byte.x83; Byte.x34; Byte.xd6; Byte.x91; Byte.x07; Byte.x48; Byte.xbc].

(** [t_block] with another trailer. *)
Definition t_block_bad_trailer : list byte :=
  [Byte.x0e; Byte.x83; Byte.x34; Byte.xd6; Byte.x91; Byte.x07; Byte.x48; Byte.xbd].

(** The block for 57 bits, whose first byte is zero, without that byte. *)
Definition t_block_short : list byte :=
  [Byte.x83; Byte.x34; Byte.xd6; Byte.x91; Byte.x07; Byte.x48; Byte.xbc].

(** Two blocks of 40 bits with digest field [11 22]: the data block of the
    first unmasks to [00 00], that of the second to [02 01]. *)
Definition t_block_zero_DB : list byte :=
  [Byte.x97; Byte.x92; Byte.x11; Byte.x22; Byte.xbc].
Definition t_block_bad_DB : list byte :=
  [Byte.x95; Byte.x93; Byte.x11; Byte.x22; Byte.xbc].

(** The hash object after one run of [mgf1_mask] over a short buffer, and
    after a complete [pss_verify] of [t_block]. *)
Definition t_hash_unmasked : HashFunction := {| buffered := []; calls := 3 |}.
Definition t_hash_verified : HashFunction := {| buffered := []; calls := 20 |}.

(** An engine that requires salts of two bytes. *)
Definition t_engine : PSSR.t :=
  {| PSSR.m_hash := fresh_hash; PSSR.m_salt_size := 2;
     PSSR.m_required_salt_len := true |}.

(** [t_block] with a first byte that has a bit set above bit 60. *)
Definition t_block_too_large : list byte :=
  [Byte.x1e; Byte.x83; Byte.x34; Byte.xd6; Byte.x91; Byte.x07; Byte.x48; Byte.xbc].

(** A source of salts that returns as many bytes as it is asked for. *)
Definition t_random_vec (n : Z) : list byte := replicate (Z.to_nat n) Byte.xaa.

(** A message, and the digest [t_msg], each in two pieces. *)
Definition t_chunks : list (list byte) := [[Byte.x01]; [Byte.x02; Byte.x03]].
Definition t_msg_chunks : list (list byte) := [[Byte.x12]; [Byte.x34]].

(** A raw-buffering engine that requires salts of three bytes. *)
Definition t_raw_engine : PSSR_Raw.t :=
  {| PSSR_Raw.m_hash := fresh_hash; PSSR_Raw.m_salt_size := 3;
     PSSR_Raw.m_required_salt_len := true; PSSR_Raw.m_msg := [] |}.

(** * Properties *)

(** ** Arithmetic on [size_t] *)

Lemma wrap_small z : 0 <= z < 2 ^ 64 -> SizeT.wrap z = z.
Proof. intros Hz. unfold SizeT.wrap, SizeT.modulus. now apply Z.mod_small. Qed.

Lemma wrap_range z : 0 <= SizeT.wrap z < 2 ^ 64.
Proof. unfold SizeT.wrap, SizeT.modulus. apply Z.mod_pos_bound. lia. Qed.

Lemma wrap_le z : 0 <= z -> SizeT.wrap z <= z.
Proof. intros Hz. unfold SizeT.wrap, SizeT.modulus. apply Z.mod_le; lia. Qed.

(** Removes the reductions modulo [2^64] whose argument is in range. *)
Ltac size_t :=
  unfold SizeT.add, SizeT.sub, SizeT.mul in *;
  repeat match goal with
         | |- context [SizeT.wrap ?z] => rewrite (wrap_small z) by lia
         | H : context [SizeT.wrap ?z] |- _ => rewrite (wrap_small z) in H by lia
         end.

Lemma size_nonneg v : 0 <= size v.
Proof. unfold size. lia. Qed.

Lemma size_app v w : size (v ++ w) = size v + size w.
Proof. unfold size. rewrite length_app. lia. Qed.

Lemma size_cons b v : size (b :: v) = 1 + size v.
Proof. unfold size. cbn [length]. lia. Qed.

Lemma size_nil : size [] = 0.
Proof. reflexivity. Qed.

Lemma size_replicate n b : size (replicate n b) = Z.of_nat n.
Proof. unfold size. now rewrite length_replicate. Qed.

Lemma size_zero_vector n : 0 <= n -> size (zero_vector n) = n.
Proof. intros Hn. unfold zero_vector. rewrite size_replicate. lia. Qed.

(** ** Bytes and bits *)

Lemma unsigned_testbit_high b i : 8 <= i -> Z.testbit (byte.unsigned b) i = false.
Proof.
  intros Hi. rewrite <- (byte.wrap_unsigned b). unfold byte.wrap.
  apply Z.mod_pow2_bits_high. lia.
Qed.

Lemma of_Z_testbit z i :
  Z.testbit (byte.unsigned (byte.of_Z z)) i = (i <? 8) && Z.testbit z i.
Proof.
  rewrite byte.unsigned_of_Z. unfold byte.wrap. apply Z.testbit_mod_pow2. lia.
Qed.

Lemma byte_bits_eq a b :
  (forall i, 0 <= i < 8 -> Z.testbit (byte.unsigned a) i = Z.testbit (byte.unsigned b) i) ->
  a = b.
Proof.
  intros Hbits. apply byte.unsigned_inj. apply Z.bits_inj'. intros i Hi.
  destruct (Z.lt_ge_cases i 8) as [Hlt | Hge].
  - apply Hbits. lia.
  - now rewrite !unsigned_testbit_high.
Qed.

Lemma xor_testbit a b i :
  Z.testbit (byte.unsigned (byte.xor a b)) i =
  xorb (Z.testbit (byte.unsigned a) i) (Z.testbit (byte.unsigned b) i).
Proof.
  unfold byte.xor. rewrite of_Z_testbit, Z.lxor_spec.
  destruct (Z.ltb_spec i 8) as [Hlt | Hge]; [reflexivity |].
  now rewrite !unsigned_testbit_high.
Qed.

Lemma and_ff_shr_testbit b n i :
  0 <= n -> 0 <= i ->
  Z.testbit (byte.unsigned (and_ff_shr b n)) i =
  Z.testbit (byte.unsigned b) i && (i + n <? 8).
Proof.
  intros Hn Hi. unfold and_ff_shr.
  rewrite of_Z_testbit, Z.land_spec, Z.shiftr_spec by lia.
  change 255 with (Z.ones 8). rewrite Z.testbit_ones_nonneg by lia.
  destruct (Z.ltb_spec i 8) as [Hlt | Hge].
  - reflexivity.
  - now rewrite unsigned_testbit_high.
Qed.

(** XOR with the same mask byte twice gives the byte back. *)
Lemma xor_xor a m : byte.xor (byte.xor a m) m = a.
Proof.
  apply byte_bits_eq. intros i Hi. rewrite !xor_testbit.
  now destruct (Z.testbit _ i), (Z.testbit _ i).
Qed.

(** Masking, clearing, unmasking and clearing again: what is left is the
    byte with its top bits cleared. *)
Lemma and_ff_shr_unmask d m n :
  0 <= n ->
  and_ff_shr (byte.xor (and_ff_shr (byte.xor d m) n) m) n = and_ff_shr d n.
Proof.
  intros Hn. apply byte_bits_eq. intros i Hi.
  rewrite !and_ff_shr_testbit, !xor_testbit, !and_ff_shr_testbit, xor_testbit by lia.
  destruct (i + n <? 8), (Z.testbit (byte.unsigned d) i),
    (Z.testbit (byte.unsigned m) i); reflexivity.
Qed.

Lemma and_ff_shr_x00 n : 0 <= n -> and_ff_shr x00 n = x00.
Proof.
  intros Hn. apply byte_bits_eq. intros i Hi.
  rewrite and_ff_shr_testbit by lia.
  change (byte.unsigned x00) with 0. now rewrite Z.testbit_0_l.
Qed.

Lemma and_ff_shr_x01 n : 0 <= n <= 7 -> and_ff_shr x01 n = x01.
Proof.
  intros Hn. apply byte_bits_eq. intros i Hi.
  rewrite and_ff_shr_testbit by lia.
  change (byte.unsigned x01) with 1.
  destruct (Z.eq_dec i 0) as [-> | Hne].
  - replace (0 + n <? 8) with true by lia. reflexivity.
  - replace (Z.testbit 1 i) with false; [reflexivity |].
    symmetry. apply Z.bits_above_log2; cbn; lia.
Qed.

Lemma and_ff_shr_bound b n :
  0 <= n <= 8 -> 0 <= byte.unsigned (and_ff_shr b n) < 2 ^ (8 - n).
Proof.
  intros Hn. pose proof (byte.unsigned_range (and_ff_shr b n)) as Hr.
  split; [lia |].
  destruct (Z.eq_dec (byte.unsigned (and_ff_shr b n)) 0) as [-> | Hne].
  - apply Z.pow_pos_nonneg; lia.
  - apply Z.log2_lt_pow2; [lia |].
    destruct (Z.lt_ge_cases (Z.log2 (byte.unsigned (and_ff_shr b n))) (8 - n))
      as [Hlt | Hge]; [assumption | exfalso].
    assert (Hbit : Z.testbit (byte.unsigned (and_ff_shr b n))
                     (Z.log2 (byte.unsigned (and_ff_shr b n))) = true)
      by (apply Z.bit_log2; lia).
    rewrite and_ff_shr_testbit in Hbit by (try apply Z.log2_nonneg; lia).
    apply andb_true_iff in Hbit as [_ Hbit]. lia.
Qed.

(** After [b &= 0xFF >> n] the byte has at least [n] leading zero bits. *)
Lemma high_bit_and_ff_shr b n : 0 <= n <= 8 -> high_bit (and_ff_shr b n) <= 8 - n.
Proof.
  intros Hn. unfold high_bit. pose proof (and_ff_shr_bound b n Hn) as Hb.
  destruct (Z.eqb_spec (byte.unsigned (and_ff_shr b n)) 0) as [_ | Hne]; [lia |].
  assert (Z.log2 (byte.unsigned (and_ff_shr b n)) < 8 - n)
    by (apply Z.log2_lt_pow2; lia).
  lia.
Qed.

Lemma high_bit_range b : 0 <= high_bit b <= 8.
Proof.
  unfold high_bit. pose proof (byte.unsigned_range b) as Hr.
  destruct (Z.eqb_spec (byte.unsigned b) 0) as [_ | Hne]; [lia |].
  pose proof (Z.log2_nonneg (byte.unsigned b)).
  assert (Z.log2 (byte.unsigned b) < 8) by (apply Z.log2_lt_pow2; lia).
  lia.
Qed.

(** ** Vectors seen as a sequence of segments *)

Lemma vec_get_middle (pre : list byte) b post i :
  i = size pre -> vec_get (pre ++ b :: post) i = Returns b.
Proof.
  intros ->. unfold vec_get, size. rewrite Nat2Z.id.
  now rewrite list_lookup_middle.
Qed.

Lemma vec_get_head b (v : list byte) : vec_get (b :: v) 0 = Returns b.
Proof. reflexivity. Qed.

Lemma vec_set_middle (pre : list byte) o post i b :
  i = size pre -> vec_set (pre ++ o :: post) i b = Returns (pre ++ b :: post).
Proof.
  intros ->. unfold vec_set.
  rewrite size_app, size_cons.
  pose proof (size_nonneg post).
  replace (size pre <? size pre + (1 + size post)) with true by lia.
  unfold size. rewrite Nat2Z.id.
  replace (length pre) with (length pre + 0)%nat at 1 by lia.
  now rewrite insert_app_r.
Qed.

Lemma vec_set_head o (v : list byte) b : vec_set (o :: v) 0 b = Returns (b :: v).
Proof. apply (vec_set_middle [] o v 0 b). reflexivity. Qed.

Lemma read_mem_middle (pre mid post : list byte) off len :
  off = size pre -> len = size mid ->
  read_mem (pre ++ mid ++ post) off len = Returns mid.
Proof.
  intros -> ->. unfold read_mem.
  rewrite !size_app. pose proof (size_nonneg post).
  replace (size pre + size mid <=? size pre + (size mid + size post)) with true by lia.
  unfold size. rewrite !Nat2Z.id.
  now rewrite drop_app_length, take_app_length.
Qed.

Lemma read_mem_prefix (mid post : list byte) len :
  len = size mid -> read_mem (mid ++ post) 0 len = Returns mid.
Proof. intros Hlen. now apply (read_mem_middle [] mid post). Qed.

Lemma read_mem_all (v : list byte) len :
  len = size v -> read_mem v 0 len = Returns v.
Proof.
  intros Hlen. rewrite <- (app_nil_r v) at 1. now apply read_mem_prefix.
Qed.

Lemma write_mem_middle (pre old new post : list byte) off :
  off = size pre -> length old = length new ->
  write_mem (pre ++ old ++ post) off new = Returns (pre ++ new ++ post).
Proof.
  intros -> Hlen. unfold write_mem.
  rewrite !size_app. pose proof (size_nonneg post).
  assert (Hsize : size old = size new) by (unfold size; lia).
  replace (size pre + size new <=? size pre + (size old + size post)) with true by lia.
  rewrite <- Hsize. unfold size.
  rewrite <- Nat2Z.inj_add, !Nat2Z.id.
  rewrite take_app_length.
  rewrite (app_assoc pre old post), <- length_app, drop_app_length.
  reflexivity.
Qed.

Lemma write_mem_prefix (old new post : list byte) :
  length old = length new ->
  write_mem (old ++ post) 0 new = Returns (new ++ post).
Proof. intros Hlen. now apply (write_mem_middle [] old new post). Qed.

(** ** The hash object *)

Section HashFacts.
Context {HA : HashAlgorithm}.

Lemma hash_update_zeros_run n h :
  hash_update_zeros n h =
  (Returns tt, {| buffered := buffered h ++ replicate n x00;
                  calls := (n + calls h)%nat |}).
Proof.
  revert h. induction n as [| n IH]; intros h; cbn [hash_update_zeros].
  - unfold ret. cbn. rewrite app_nil_r. now destruct h.
  - unfold bind, hash_update. rewrite IH. cbn.
    rewrite <- app_assoc. do 3 f_equal. lia.
Qed.

Lemma length_mgf1_blocks n seed counter :
  length (mgf1_blocks n seed counter) = (n * output_length)%nat.
Proof.
  revert counter. induction n as [| n IH]; intros counter; cbn [mgf1_blocks].
  - reflexivity.
  - rewrite length_app, digest_length, IH. lia.
Qed.

Lemma length_MGF1 seed len : length (MGF1 seed len) = len.
Proof.
  unfold MGF1. rewrite length_take, length_mgf1_blocks.
  pose proof output_length_pos. nia.
Qed.

Lemma xor_buf_length out inp :
  length out = length inp -> length (xor_buf out inp) = length out.
Proof. intros Hlen. unfold xor_buf. rewrite length_zip_with. lia. Qed.

(** Masking twice with the same mask is the identity. *)
Lemma xor_buf_involutive out mask :
  length out = length mask -> xor_buf (xor_buf out mask) mask = out.
Proof.
  revert mask. induction out as [| b out IH]; intros [| m mask] Hlen;
    cbn in *; try reflexivity; try discriminate.
  rewrite xor_xor. f_equal. apply IH. lia.
Qed.

(** On a hash object with nothing buffered the loop XORs the pure mask
    over [out], and leaves the object with nothing buffered. *)
Lemma mgf1_loop_run fuel : forall seed out counter h,
  buffered h = [] ->
  (length out <= fuel)%nat ->
  exists h',
    mgf1_loop fuel seed out counter h =
      (Returns (xor_buf out (take (length out) (mgf1_blocks fuel seed counter))), h')
    /\ buffered h' = [].
Proof.
  induction fuel as [| fuel IH]; intros seed out counter h Hbuf Hlen.
  - destruct out; [| cbn in Hlen; lia]. exists h. split; [reflexivity | assumption].
  - destruct out as [| b out].
    + exists h. split; [reflexivity | assumption].
    + cbn [mgf1_loop]. unfold bind at 1 2 3. unfold hash_update, hash_final.
      cbn [buffered calls]. rewrite Hbuf. cbn [app].
      set (l := b :: out) in *.
      assert (Hl : (1 <= length l)%nat) by (subst l; cbn [length]; lia).
      set (B := digest (seed ++ be32 counter)).
      set (xored := Nat.min (length B) (length l)).
      set (h1 := {| buffered := []; calls := _ |}).
      assert (HB : length B = output_length) by apply digest_length.
      pose proof output_length_pos as Hpos.
      destruct (IH seed (drop xored l) ((counter + 1) mod 2 ^ 32) h1)
        as (h' & Hrun & Hbuf'); [reflexivity | rewrite length_drop; lia |].
      exists h'. split; [| assumption].
      unfold bind. rewrite Hrun. unfold ret. do 2 f_equal.
      cbn [mgf1_blocks]. fold B.
      rewrite length_drop. unfold xor_buf.
      destruct (Nat.le_gt_cases (length l) (length B)) as [Hle | Hgt].
      * replace xored with (length l) by lia.
        rewrite drop_all, Nat.sub_diag, zip_with_nil_l, app_nil_r.
        rewrite firstn_all, take_app_le by lia.
        symmetry. apply zip_with_take_r'. lia.
      * replace xored with (length B) by lia.
        rewrite take_app_ge by lia.
        symmetry. rewrite <- (take_drop (length B) l) at 1.
        apply zip_with_app. rewrite length_take. lia.
Qed.

End HashFacts.

(** ** Running the monad *)

Lemma bind_returns {S A B} (m : M S A) (f : A -> M S B) s a s' :
  m s = (Returns a, s') -> bind m f s = f a s'.
Proof. intros Hm. unfold bind. now rewrite Hm. Qed.

Lemma bind_lift_returns {S A B} (o : outcome A) (f : A -> M S B) s a :
  o = Returns a -> bind (lift o) f s = f a s.
Proof. intros ->. reflexivity. Qed.

Lemma bind_ret {S A B} (a : A) (f : A -> M S B) s : bind (ret a) f s = f a s.
Proof. reflexivity. Qed.

Create HintDb no_throw.

Lemma no_throw_ret {S A} (a : A) : no_throw (S := S) (ret a).
Proof. intros s e. discriminate. Qed.

Lemma no_throw_bind {S A B} (m : M S A) (f : A -> M S B) :
  no_throw m -> (forall a, no_throw (f a)) -> no_throw (bind m f).
Proof.
  intros Hm Hf s e. unfold bind. specialize (Hm s).
  destruct (m s) as [[a | e' |] s'].
  - apply Hf.
  - now specialize (Hm e').
  - discriminate.
Qed.

Lemma no_throw_vec_get {S} v i : no_throw (S := S) (lift (vec_get v i)).
Proof. intros s e. unfold lift, vec_get. now destruct (v !! _). Qed.

Lemma no_throw_vec_set {S} v i b : no_throw (S := S) (lift (vec_set v i b)).
Proof. intros s e. unfold lift, vec_set. now destruct (i <? _). Qed.

Lemma no_throw_read_mem {S} v off len : no_throw (S := S) (lift (read_mem v off len)).
Proof. intros s e. unfold lift, read_mem. now destruct (_ <=? _). Qed.

Lemma no_throw_write_mem {S} v off data : no_throw (S := S) (lift (write_mem v off data)).
Proof. intros s e. unfold lift, write_mem. now destruct (_ <=? _). Qed.

Lemma no_throw_buffer_insert {S} v off data :
  no_throw (S := S) (lift (buffer_insert v off data)).
Proof. apply no_throw_write_mem. Qed.

#[export] Hint Resolve no_throw_ret no_throw_vec_get no_throw_vec_set
  no_throw_read_mem no_throw_write_mem no_throw_buffer_insert : no_throw.

Section NoThrow.
Context {HA : HashAlgorithm}.

Lemma no_throw_hash_update data : no_throw (hash_update data).
Proof. intros s e. discriminate. Qed.

Lemma no_throw_hash_final : no_throw hash_final.
Proof. intros s e. discriminate. Qed.

Lemma no_throw_hash_update_zeros n : no_throw (hash_update_zeros n).
Proof.
  induction n as [| n IH]; cbn [hash_update_zeros].
  - apply no_throw_ret.
  - apply no_throw_bind; [apply no_throw_hash_update | intros _; exact IH].
Qed.

Lemma no_throw_mgf1_loop fuel : forall seed out counter,
  no_throw (mgf1_loop fuel seed out counter).
Proof.
  induction fuel as [| fuel IH]; intros seed out counter; cbn [mgf1_loop].
  - apply no_throw_ret.
  - destruct out as [| b out]; [apply no_throw_ret |].
    repeat (apply no_throw_bind;
            [first [apply no_throw_hash_update | apply no_throw_hash_final | apply IH]
            | intros ?]).
    apply no_throw_ret.
Qed.

Lemma no_throw_mgf1_mask inp buf out_len : no_throw (mgf1_mask inp buf out_len).
Proof.
  unfold mgf1_mask.
  apply no_throw_bind; [auto with no_throw | intros out].
  apply no_throw_bind; [apply no_throw_mgf1_loop | intros masked].
  auto with no_throw.
Qed.

End NoThrow.

#[export] Hint Resolve no_throw_hash_update no_throw_hash_final
  no_throw_hash_update_zeros no_throw_mgf1_loop no_throw_mgf1_mask : no_throw.

Section EncodeVerify.
Context {HA : HashAlgorithm}.

Lemma length_clear_top n v : length (clear_top n v) = length v.
Proof. now destruct v. Qed.

Lemma size_pss_DB salt output_bits :
  8 * Z.of_nat output_length + 8 * size salt + 9 <= output_bits ->
  size (pss_DB salt output_bits) = (output_bits + 7) / 8 - Z.of_nat output_length - 1.
Proof.
  intros Hfloor. unfold pss_DB.
  rewrite size_app, size_cons, size_replicate.
  pose proof (size_nonneg salt). lia.
Qed.

Lemma mgf1_mask_run seed (DB post : list byte) out_len h :
  buffered h = [] ->
  out_len = size DB ->
  exists h',
    mgf1_mask seed (DB ++ post) out_len h =
      (Returns (xor_buf DB (MGF1 seed (length DB)) ++ post), h')
    /\ buffered h' = [].
Proof.
  intros Hbuf Hlen. unfold mgf1_mask.
  rewrite (bind_lift_returns _ _ _ DB) by now apply read_mem_prefix.
  destruct (mgf1_loop_run (length DB) seed DB 0 h Hbuf) as (h' & Hrun & Hbuf');
    [lia |].
  exists h'. split; [| assumption].
  rewrite (bind_returns _ _ _ _ _ Hrun). unfold lift. f_equal.
  apply write_mem_prefix.
  rewrite xor_buf_length; [reflexivity |].
  now rewrite length_MGF1.
Qed.

Lemma pss_encode_run msg salt output_bits h :
  size msg = Z.of_nat output_length ->
  8 * Z.of_nat output_length + 8 * size salt + 9 <= output_bits ->
  output_bits + 7 < 2 ^ 64 ->
  let H := digest (buffered h ++ replicate 8 x00 ++ msg ++ salt) in
  let DB := pss_DB salt output_bits in
  exists h',
    pss_encode msg salt output_bits h =
      (Returns (clear_top (top_bits output_bits) (xor_buf DB (MGF1 H (length DB)))
                  ++ H ++ [xbc]), h')
    /\ buffered h' = [].
Proof.
  intros Hmsg Hfloor Hrep H DB.
  pose proof (size_nonneg salt) as Hsalt.
  pose proof (size_pss_DB salt output_bits Hfloor) as HsizeDB. fold DB in HsizeDB.
  assert (HlenH : length H = output_length) by apply digest_length.
  unfold pss_encode.
  rewrite Hmsg, Z.eqb_refl. cbn [negb].
  size_t.
  replace (output_bits <? _) with false by lia.
  assert (Hol : Z.of_nat output_length + size salt + 2 <= (output_bits + 7) / 8) by lia.
  set (ol := (output_bits + 7) / 8) in *.
  set (Zh := replicate output_length x00).
  (* the hash of the padded message *)
  rewrite (bind_returns _ _ _ _ _ (hash_update_zeros_run 8 h)).
  rewrite (bind_returns (hash_update msg) _ _ tt _ eq_refl).
  rewrite (bind_returns (hash_update salt) _ _ tt _ eq_refl).
  rewrite (bind_returns hash_final _ _ _ _ eq_refl).
  cbn [buffered calls]. rewrite <- !app_assoc. fold H.
  set (h1 := {| buffered := []; calls := _ |}).
  (* separator and salt *)
  assert (Hzero : zero_vector ol =
            replicate (Z.to_nat (ol - Z.of_nat output_length - size salt - 2)) x00
              ++ x00 :: replicate (length salt) x00 ++ Zh ++ [x00]).
  { unfold zero_vector, Zh.
    change (x00 :: ?l) with (replicate 1 x00 ++ l).
    change [x00] with (replicate 1 x00).
    rewrite <- !replicate_add. f_equal. unfold size in *. lia. }
  rewrite Hzero.
  erewrite bind_lift_returns by (apply vec_set_middle; rewrite size_replicate; lia).
  assert (Hsalt_in : forall pre post,
             size pre = ol - Z.of_nat output_length - size salt - 2 ->
             buffer_insert (pre ++ x01 :: replicate (length salt) x00 ++ post)
               (ol - 1 - Z.of_nat output_length - size salt) salt
             = Returns ((pre ++ x01 :: salt) ++ post)).
  { intros pre post Hpre. unfold buffer_insert.
    rewrite (cons_middle x01 pre), app_assoc.
    rewrite (write_mem_middle (pre ++ [x01]) _ salt post).
    - now rewrite <- !app_assoc.
    - rewrite size_app. change (size [x01]) with 1. lia.
    - now rewrite length_replicate. }
  erewrite bind_lift_returns by (apply Hsalt_in; rewrite size_replicate; lia).
  clear Hsalt_in Hzero. fold (pss_DB salt output_bits). fold DB.
  (* masking *)
  erewrite bind_lift_returns by (apply read_mem_all; unfold size; lia).
  destruct (mgf1_mask_run H DB (Zh ++ [x00]) (ol - Z.of_nat output_length - 1) h1)
    as (h' & Hmask & Hbuf'); [reflexivity | lia |].
  rewrite (bind_returns _ _ _ _ _ Hmask). clear Hmask.
  exists h'. split; [| assumption].
  assert (HlenX : length (xor_buf DB (MGF1 H (length DB))) = length DB)
    by (apply xor_buf_length; now rewrite length_MGF1).
  destruct (xor_buf DB (MGF1 H (length DB))) as [| x0 X].
  { exfalso. cbn [length] in HlenX. unfold size in HsizeDB. lia. }
  cbn [app clear_top].
  rewrite (bind_lift_returns _ _ _ _ (vec_get_head x0 _)).
  rewrite (bind_lift_returns _ _ _ _ (vec_set_head x0 _ _)).
  fold (top_bits output_bits).
  set (cX := and_ff_shr x0 (top_bits output_bits) :: X).
  assert (HsizecX : size cX = ol - Z.of_nat output_length - 1).
  { rewrite <- HsizeDB. unfold size, cX. cbn [length] in *. lia. }
  change (and_ff_shr x0 (top_bits output_bits) :: X ++ ?l) with (cX ++ l).
  (* digest and trailer *)
  unfold buffer_insert.
  erewrite bind_lift_returns
    by (apply (write_mem_middle cX Zh H [x00]);
        [lia | unfold Zh; rewrite length_replicate; lia]).
  rewrite (app_assoc cX H [x00]).
  erewrite bind_lift_returns
    by (apply (vec_set_middle (cX ++ H) x00 []);
        rewrite size_app; unfold size at 2; lia).
  unfold ret. now rewrite <- app_assoc.
Qed.

(** The scan over zero padding, separator and salt stops just after the
    separator. *)
Lemma scan_separator_padding sep : forall salt j,
  0 <= j -> j + Z.of_nat sep + 1 < 2 ^ 64 ->
  scan_separator (replicate sep x00 ++ x01 :: salt) j = Some (j + Z.of_nat sep + 1).
Proof.
  induction sep as [| sep IH]; intros salt j Hj Hbound; cbn [replicate app scan_separator].
  - rewrite bool_decide_true by reflexivity. size_t. f_equal. lia.
  - rewrite bool_decide_false by discriminate.
    rewrite bool_decide_true by reflexivity.
    size_t. rewrite IH by lia. f_equal. lia.
Qed.

(** Unmasking a masked data block whose top bits were cleared, and
    clearing them again, gives the data block back when it starts with a
    padding byte or with the separator. *)
Lemma unmask_clear_top n d0 DB mask :
  0 <= n <= 7 ->
  d0 = x00 \/ d0 = x01 ->
  length mask = S (length DB) ->
  clear_top n (xor_buf (clear_top n (xor_buf (d0 :: DB) mask)) mask) = d0 :: DB.
Proof.
  intros Hn Hd0 Hlen. destruct mask as [| m mask]; [discriminate |].
  cbn [xor_buf zip_with clear_top]. rewrite and_ff_shr_unmask by lia.
  f_equal.
  - destruct Hd0 as [-> | ->]; [apply and_ff_shr_x00 | apply and_ff_shr_x01]; lia.
  - apply xor_buf_involutive. cbn [length] in Hlen. lia.
Qed.

Lemma pss_verify_unmask_run msg salt sep key_bits h :
  buffered h = [] ->
  size msg = Z.of_nat output_length ->
  0 <= key_bits -> key_bits + 7 < 2 ^ 64 ->
  let H := pss_H msg salt in
  let DB := replicate sep x00 ++ x01 :: salt in
  (key_bits + 7) / 8 = size DB + Z.of_nat output_length + 1 ->
  exists h',
    pss_verify_unmask
      (clear_top (top_bits key_bits) (xor_buf DB (MGF1 H (length DB))) ++ H ++ [xbc])
      msg key_bits h
    = (Returns (Some (DB ++ H ++ [xbc], size DB)), h')
    /\ buffered h' = [].
Proof.
  intros Hbuf Hmsg Hkey Hrep H DB Hbytes.
  assert (HlenH : length H = output_length) by apply digest_length.
  assert (HsizeDB : size DB = Z.of_nat sep + 1 + size salt).
  { unfold DB. rewrite size_app, size_cons, size_replicate. lia. }
  pose proof (size_nonneg salt) as Hsalt.
  assert (Htop : 0 <= top_bits key_bits <= 7) by (unfold top_bits; lia).
  set (mask := MGF1 H (length DB)).
  assert (Hlenmask : length mask = length DB) by apply length_MGF1.
  set (cDB := clear_top (top_bits key_bits) (xor_buf DB mask)).
  assert (HlencDB : length cDB = length DB).
  { unfold cDB. rewrite length_clear_top. apply xor_buf_length. lia. }
  assert (HsizecDB : size cDB = size DB) by (unfold size; lia).
  assert (Hsize : size (cDB ++ H ++ [xbc]) = (key_bits + 7) / 8).
  { rewrite !size_app. unfold size at 2 3. cbn [length]. lia. }
  unfold pss_verify_unmask.
  rewrite Hmsg, Z.eqb_refl. cbn [negb]. rewrite Hsize.
  size_t. fold (top_bits key_bits).
  replace (key_bits <? _) with false by lia.
  rewrite Z.ltb_irrefl. replace (_ <=? 1) with false by lia. cbn [orb].
  (* trailer; no padding is needed *)
  erewrite bind_lift_returns
    by (rewrite (app_assoc cDB H [xbc]); apply vec_get_middle;
        rewrite size_app; unfold size at 2; lia).
  rewrite bool_decide_true by reflexivity. cbn [negb].
  rewrite bind_ret. rewrite Hsize.
  (* top bits of the first byte *)
  assert (HcDB : exists c0 cDB', cDB = and_ff_shr c0 (top_bits key_bits) :: cDB').
  { unfold cDB. destruct (xor_buf DB mask) as [| c0 cDB'] eqn:E.
    - apply (f_equal length) in E. rewrite xor_buf_length in E by lia.
      unfold size in HsizeDB. cbn [length] in E. lia.
    - now exists c0, cDB'. }
  destruct HcDB as (c0 & cDB' & HcDB).
  erewrite bind_lift_returns by (rewrite HcDB; apply vec_get_head).
  pose proof (high_bit_and_ff_shr c0 (top_bits key_bits) ltac:(lia)) as Hhigh.
  pose proof (high_bit_range (and_ff_shr c0 (top_bits key_bits))) as Hhr.
  size_t.
  replace (_ <? top_bits key_bits) with false by lia.
  (* unmasking *)
  erewrite bind_lift_returns
    by (apply (read_mem_middle cDB H [xbc]); unfold size in *; lia).
  destruct (mgf1_mask_run H cDB (H ++ [xbc])
              ((key_bits + 7) / 8 - Z.of_nat output_length - 1) h Hbuf)
    as (h' & Hmask & Hbuf'); [lia |].
  rewrite (bind_returns _ _ _ _ _ Hmask). clear Hmask.
  exists h'. split; [| assumption].
  rewrite HlencDB. fold mask.
  assert (Hunmask : clear_top (top_bits key_bits) (xor_buf cDB mask) = DB).
  { unfold cDB, DB in *. destruct sep as [| sep]; cbn [replicate app] in *.
    - apply unmask_clear_top; [lia | now right | cbn [length] in *; lia].
    - apply unmask_clear_top; [lia | now left | cbn [length] in *; lia]. }
  destruct (xor_buf cDB mask) as [| u0 U] eqn:EU.
  { exfalso. apply (f_equal length) in EU. rewrite xor_buf_length in EU by lia.
    unfold size in HsizeDB. cbn [length] in EU. lia. }
  cbn [app clear_top] in *.
  rewrite (bind_lift_returns _ _ _ _ (vec_get_head _ _)).
  rewrite (bind_lift_returns _ _ _ _ (vec_set_head _ _ _)).
  change (and_ff_shr u0 (top_bits key_bits) :: U ++ ?l)
    with ((and_ff_shr u0 (top_bits key_bits) :: U) ++ l).
  rewrite Hunmask. unfold ret. do 4 f_equal. lia.
Qed.

Lemma pss_verify_check_run msg salt sep out h :
  buffered h = [] ->
  let H := pss_H msg salt in
  let DB := replicate sep x00 ++ x01 :: salt in
  size DB < 2 ^ 64 ->
  exists h',
    pss_verify_check (DB ++ H ++ [xbc]) (size DB) msg out h
    = (Returns (true, if out then Some (size salt) else None), h')
    /\ buffered h' = [].
Proof.
  intros Hbuf H DB Hbound.
  assert (HlenH : length H = output_length) by apply digest_length.
  assert (HsizeDB : size DB = Z.of_nat sep + 1 + size salt).
  { unfold DB. rewrite size_app, size_cons, size_replicate. lia. }
  pose proof (size_nonneg salt) as Hsalt.
  unfold pss_verify_check.
  erewrite bind_lift_returns by (now apply read_mem_prefix).
  unfold DB at 1. rewrite scan_separator_padding by lia.
  replace (0 + Z.of_nat sep + 1 =? 0) with false by lia.
  size_t.
  rewrite (bind_returns _ _ _ _ _ (hash_update_zeros_run 8 h)).
  rewrite (bind_returns (hash_update msg) _ _ tt _ eq_refl).
  assert (Hread : read_mem (DB ++ H ++ [xbc]) (0 + Z.of_nat sep + 1)
                    (size DB - (0 + Z.of_nat sep + 1)) = Returns salt).
  { rewrite HsizeDB. unfold DB.
    rewrite (cons_middle x01), (app_assoc _ [x01] salt), <- (app_assoc _ salt).
    apply read_mem_middle.
    - rewrite size_app, size_replicate. change (size [x01]) with 1. lia.
    - lia. }
  rewrite (bind_lift_returns _ _ _ _ Hread).
  rewrite (bind_returns (hash_update salt) _ _ tt _ eq_refl).
  rewrite (bind_returns hash_final _ _ _ _ eq_refl).
  cbn [buffered calls]. rewrite Hbuf. cbn [app]. rewrite <- !app_assoc.
  fold (pss_H msg salt). fold H.
  erewrite bind_lift_returns
    by (apply (read_mem_middle DB H [xbc]); unfold size; lia).
  unfold constant_time_compare. rewrite bool_decide_true by reflexivity.
  rewrite andb_true_r.
  replace (size DB - (0 + Z.of_nat sep + 1)) with (size salt) by lia.
  eexists. split; reflexivity.
Qed.

(** C1. Round trip: on a hash object with nothing buffered, a digest of
    length [HASH_SIZE], any salt and any [output_bits] meeting the floor
    (and representable: rounding up to bytes does not wrap around), the
    block produced by [pss_encode] is accepted by [pss_verify] against the
    same digest, for every [key_bits] with the same number of bytes and the
    same number of masked top bits as [output_bits]; the salt length
    recovered is the length of the salt. *)
Theorem pss_encode_verify_roundtrip msg salt output_bits key_bits out h :
  buffered h = [] ->
  size msg = Z.of_nat output_length ->
  8 * Z.of_nat output_length + 8 * size salt + 9 <= output_bits ->
  output_bits + 7 < 2 ^ 64 ->
  (key_bits + 7) / 8 = (output_bits + 7) / 8 ->
  top_bits key_bits = top_bits output_bits ->
  exists EM h1 h2,
    pss_encode msg salt output_bits h = (Returns EM, h1)
    /\ pss_verify EM msg key_bits out h1
       = (Returns (true, if out then Some (size salt) else None), h2).
Proof.
  intros Hbuf Hmsg Hfloor Hrep Hbytes Htop.
  assert (key_bits = output_bits) as -> by (unfold top_bits in Htop; lia).
  pose proof (size_nonneg salt) as Hsalt.
  destruct (pss_encode_run msg salt output_bits h Hmsg Hfloor Hrep)
    as (h1 & Hencode & Hbuf1).
  rewrite Hbuf in Hencode. cbn [app] in Hencode. fold (pss_H msg salt) in Hencode.
  pose proof (size_pss_DB salt output_bits Hfloor) as HsizeDB.
  unfold pss_DB in Hencode, HsizeDB.
  set (sep := Z.to_nat ((output_bits + 7) / 8 - Z.of_nat output_length - size salt - 2))
    in *.
  destruct (pss_verify_unmask_run msg salt sep output_bits h1 Hbuf1 Hmsg)
    as (h2 & Hunmask & Hbuf2); [lia | lia | lia |].
  destruct (pss_verify_check_run msg salt sep out h2 Hbuf2) as (h3 & Hcheck & _);
    [lia |].
  eexists _, h1, h3. split; [exact Hencode |].
  unfold pss_verify. rewrite (bind_returns _ _ _ _ _ Hunmask). exact Hcheck.
Qed.

(** C2. Layout of the encoded block: for a digest of length [HASH_SIZE],
    any salt and any representable [output_bits] meeting the floor, the
    block has [ceil(output_bits/8)] bytes; the data block before masking has
    [0x01] at offset [output_length - HASH_SIZE - SALT_SIZE - 2] with the
    salt right after it; the MGF1 mask seeded by
    [H = Hash(0x00*8 || digest || salt)] is XORed over exactly the first
    [output_length - HASH_SIZE - 1] bytes; the top
    [8*output_length - output_bits] bits of the first byte are cleared; [H]
    follows at offset [output_length - 1 - HASH_SIZE]; the last byte is
    [0xBC]. *)
Theorem pss_encode_layout msg salt output_bits h :
  buffered h = [] ->
  size msg = Z.of_nat output_length ->
  8 * Z.of_nat output_length + 8 * size salt + 9 <= output_bits ->
  output_bits + 7 < 2 ^ 64 ->
  let HASH_SIZE := Z.of_nat output_length in
  let SALT_SIZE := size salt in
  let output_length := (output_bits + 7) / 8 in
  let H := digest (replicate 8 x00 ++ msg ++ salt) in
  let DB := replicate (Z.to_nat (output_length - HASH_SIZE - SALT_SIZE - 2)) x00
              ++ x01 :: salt in
  let mask := MGF1 H (Z.to_nat (output_length - HASH_SIZE - 1)) in
  exists EM h',
    pss_encode msg salt output_bits h = (Returns EM, h')
    /\ size EM = output_length
    /\ DB !! Z.to_nat (output_length - HASH_SIZE - SALT_SIZE - 2) = Some x01
    /\ drop (Z.to_nat (output_length - HASH_SIZE - SALT_SIZE - 1)) DB = salt
    /\ size DB = output_length - HASH_SIZE - 1
    /\ length mask = length DB
    /\ EM = clear_top (8 * output_length - output_bits) (xor_buf DB mask) ++ H ++ [xbc]
    /\ (forall b, EM !! 0%nat = Some b ->
        forall i, 8 - (8 * output_length - output_bits) <= i < 8 ->
                  Z.testbit (byte.unsigned b) i = false)
    /\ take (Z.to_nat HASH_SIZE) (drop (Z.to_nat (output_length - 1 - HASH_SIZE)) EM) = H
    /\ EM !! Z.to_nat (output_length - 1) = Some xbc.
Proof.
  intros Hbuf Hmsg Hfloor Hrep HASH_SIZE SALT_SIZE ol H DB mask.
  pose proof (size_nonneg salt) as Hsalt.
  destruct (pss_encode_run msg salt output_bits h Hmsg Hfloor Hrep)
    as (h1 & Hencode & Hbuf1).
  rewrite Hbuf in Hencode. cbn [app] in Hencode. fold H in Hencode.
  pose proof (size_pss_DB salt output_bits Hfloor) as HsizeDB.
  unfold pss_DB in Hencode, HsizeDB. fold HASH_SIZE SALT_SIZE ol DB in Hencode, HsizeDB.
  assert (HlenH : length H = output_length) by apply digest_length.
  assert (Hol : HASH_SIZE + SALT_SIZE + 2 <= ol) by (subst HASH_SIZE SALT_SIZE ol; lia).
  assert (Htop : 0 <= 8 * ol - output_bits <= 7) by (subst ol; lia).
  assert (HlenDB : length DB = Z.to_nat (ol - HASH_SIZE - 1)) by (unfold size in HsizeDB; lia).
  rewrite HlenDB in Hencode. fold mask in Hencode.
  assert (Hlenmask : length mask = length DB) by (unfold mask; now rewrite length_MGF1).
  assert (Htb : top_bits output_bits = 8 * ol - output_bits) by reflexivity.
  set (cDB := clear_top (top_bits output_bits) (xor_buf DB mask)) in *.
  assert (HlencDB : length cDB = length DB).
  { unfold cDB. rewrite length_clear_top. apply xor_buf_length. lia. }
  eexists _, h1. split; [exact Hencode |].
  repeat split.
  - rewrite !size_app. unfold size in *. cbn [length]. lia.
  - unfold DB. apply list_lookup_middle. now rewrite length_replicate.
  - unfold DB. rewrite (cons_middle x01), app_assoc.
    apply drop_app_length'. rewrite length_app, length_replicate.
    cbn [length]. unfold SALT_SIZE in *. lia.
  - exact HsizeDB.
  - exact Hlenmask.
  - intros b Hb i Hi.
    destruct (xor_buf DB mask) as [| x0 X] eqn:EX.
    { apply (f_equal length) in EX. rewrite xor_buf_length in EX by lia.
      cbn [length] in EX. unfold size in HsizeDB. lia. }
    unfold cDB in Hb. cbn in Hb. injection Hb as <-.
    rewrite and_ff_shr_testbit by lia.
    replace (i + top_bits output_bits <? 8) with false by lia.
    apply andb_false_r.
  - rewrite drop_app_length' by (unfold size in *; lia).
    apply take_app_length'. unfold HASH_SIZE. lia.
  - rewrite app_assoc. apply list_lookup_middle.
    rewrite length_app. unfold size in *. lia.
Qed.

(** *** Early rejections *)

Lemma pss_verify_early pss_repr message_hash key_bits out h h' :
  pss_verify_unmask pss_repr message_hash key_bits h = (Returns None, h') ->
  pss_verify pss_repr message_hash key_bits out h = (Returns (false, None), h').
Proof. intros Hearly. unfold pss_verify. now rewrite (bind_returns _ _ _ _ _ Hearly). Qed.

Lemma key_bytes_range key_bits : 0 <= (key_bits +w 7) / 8 < 2 ^ 61.
Proof. unfold SizeT.add. pose proof (wrap_range (key_bits + 7)). lia. Qed.

Lemma vec_get_last (v : list byte) :
  1 <= size v -> vec_get v (size v - 1) = match last v with
                                          | Some b => Returns b
                                          | None => Undefined
                                          end.
Proof.
  intros Hsize. unfold vec_get. rewrite last_lookup.
  replace (Z.to_nat (size v - 1)) with (Nat.pred (length v)) by (unfold size in *; lia).
  reflexivity.
Qed.

(** C4. Trailer check: whatever the digest, the key size and the other
    bytes, a block whose last byte is not [0xBC] is rejected, and the hash
    object is left untouched. *)
Theorem pss_verify_trailer pss_repr message_hash key_bits out h :
  last pss_repr <> Some xbc ->
  pss_verify pss_repr message_hash key_bits out h = (Returns (false, None), h).
Proof.
  intros Hlast. apply pss_verify_early. unfold pss_verify_unmask. cbv zeta.
  destruct (key_bits <? _); [reflexivity |].
  destruct (negb _); [reflexivity |].
  destruct (_ || _) eqn:Hlen; [reflexivity |].
  apply orb_false_iff in Hlen as [Hle Hgt].
  pose proof (key_bytes_range key_bits) as Hkb.
  apply Z.ltb_ge in Hle. apply Z.leb_gt in Hgt.
  assert (Hsize : 1 < size pss_repr < 2 ^ 61) by lia.
  unfold SizeT.sub. rewrite wrap_small by lia.
  rewrite vec_get_last by lia.
  destruct (last pss_repr) as [b |] eqn:Eb.
  - rewrite (bind_lift_returns _ _ _ b eq_refl).
    rewrite bool_decide_false by congruence. reflexivity.
  - apply last_None in Eb. subst pss_repr. cbn in Hsize. lia.
Qed.

(** C7. Short and over-long blocks: a block of zero or one byte, or of
    more than [ceil(key_bits/8)] bytes, is rejected; the hash object that
    comes back is the one that went in, call counter included, so neither
    [update] nor [final] was called. *)
Theorem pss_verify_bad_length pss_repr message_hash key_bits out h :
  0 <= key_bits ->
  size pss_repr <= 1 \/ (key_bits + 7) / 8 < size pss_repr ->
  pss_verify pss_repr message_hash key_bits out h = (Returns (false, None), h)
  /\ calls (snd (pss_verify pss_repr message_hash key_bits out h)) = calls h.
Proof.
  intros Hkey Hlen.
  assert (Hrun : pss_verify pss_repr message_hash key_bits out h
                 = (Returns (false, None), h)).
  { apply pss_verify_early. unfold pss_verify_unmask. cbv zeta.
    destruct (key_bits <? _); [reflexivity |].
    destruct (negb _); [reflexivity |].
    assert (Hcode : (key_bits +w 7) / 8 <= (key_bits + 7) / 8).
    { unfold SizeT.add. pose proof (wrap_le (key_bits + 7)).
      pose proof (wrap_range (key_bits + 7)). lia. }
    replace (_ || _) with true; [reflexivity |].
    symmetry. apply orb_true_iff. lia. }
  now rewrite Hrun.
Qed.

(** C6. Length of the digest: [pss_encode] throws an encoding error on an
    input whose length is not the output length of the hash, and
    [pss_verify] returns [false] for such a digest. *)
Theorem pss_digest_length_mismatch msg :
  size msg <> Z.of_nat output_length ->
  (forall salt output_bits h,
      pss_encode msg salt output_bits h
      = (Throws (Encoding_Error "Cannot encode PSS string, input length invalid for hash"), h))
  /\ (forall pss_repr key_bits out h,
        pss_verify pss_repr msg key_bits out h = (Returns (false, None), h)).
Proof.
  intros Hlen. split.
  - intros salt output_bits h. unfold pss_encode.
    replace (size msg =? _) with false by lia. reflexivity.
  - intros pss_repr key_bits out h. apply pss_verify_early. unfold pss_verify_unmask. cbv zeta.
    destruct (key_bits <? _); [reflexivity |].
    replace (size msg =? _) with false by lia. reflexivity.
Qed.

(** C5. Length floors: for a digest of length [HASH_SIZE] and a salt
    whose floor [8*HASH_SIZE + 8*SALT_SIZE + 9] is representable,
    [pss_encode] throws the encoding error "output length too small" when
    [output_bits] is below the floor and throws nothing when it is not; and
    [pss_verify] returns [false], without an error and without touching the
    hash object, when [key_bits < 8*HASH_SIZE + 9]. *)
Theorem pss_length_floor msg salt :
  size msg = Z.of_nat output_length ->
  8 * Z.of_nat output_length + 8 * size salt + 9 < 2 ^ 64 ->
  (forall output_bits h,
      output_bits < 8 * Z.of_nat output_length + 8 * size salt + 9 ->
      pss_encode msg salt output_bits h
      = (Throws (Encoding_Error "Cannot encode PSS string, output length too small"), h))
  /\ (forall output_bits h e,
        8 * Z.of_nat output_length + 8 * size salt + 9 <= output_bits ->
        fst (pss_encode msg salt output_bits h) <> Throws e)
  /\ (forall pss_repr message_hash key_bits out h,
        key_bits < 8 * Z.of_nat output_length + 9 ->
        pss_verify pss_repr message_hash key_bits out h = (Returns (false, None), h)).
Proof.
  intros Hmsg Hrep. pose proof (size_nonneg salt) as Hsalt.
  split; [| split].
  - intros output_bits h Hlow. unfold pss_encode.
    rewrite Hmsg, Z.eqb_refl. cbn [negb]. size_t.
    now replace (output_bits <? _) with true by lia.
  - intros output_bits h e Hfloor. unfold pss_encode.
    rewrite Hmsg, Z.eqb_refl. cbn [negb]. size_t.
    replace (output_bits <? _) with false by lia.
    revert h e.
    repeat (apply no_throw_bind; [auto with no_throw | intros ?]).
    apply no_throw_ret.
  - intros pss_repr message_hash key_bits out h Hlow.
    apply pss_verify_early. unfold pss_verify_unmask. size_t.
    now replace (key_bits <? _) with true by lia.
Qed.

(** *** Left padding *)

Lemma buffer_insert_zero_vector n (v : list byte) :
  size v <= n ->
  buffer_insert (zero_vector n) (n - size v) v
  = Returns (replicate (Z.to_nat (n - size v)) x00 ++ v).
Proof.
  intros Hle. pose proof (size_nonneg v) as Hv.
  unfold buffer_insert, zero_vector.
  replace (Z.to_nat n) with (Z.to_nat (n - size v) + length v)%nat
    by (unfold size in *; lia).
  rewrite replicate_add.
  pose proof (write_mem_middle (replicate (Z.to_nat (n - size v)) x00)
                (replicate (length v) x00) v [] (n - size v)) as Hwrite.
  rewrite !app_nil_r in Hwrite. apply Hwrite.
  - rewrite size_replicate. lia.
  - now rewrite length_replicate.
Qed.

(** C9. Left padding: for a block of more than one and at most
    [ceil(key_bits/8)] bytes, [pss_verify] gives the same result, and leaves
    the hash object in the same state, as on the block extended on the left
    with zero bytes to [ceil(key_bits/8)] bytes. *)
Theorem pss_verify_left_padding pss_repr message_hash key_bits out h :
  0 <= key_bits < 2 ^ 64 ->
  1 < size pss_repr <= (key_bits + 7) / 8 ->
  pss_verify
    (replicate (Z.to_nat ((key_bits + 7) / 8 - size pss_repr)) x00 ++ pss_repr)
    message_hash key_bits out h
  = pss_verify pss_repr message_hash key_bits out h.
Proof.
  intros Hkey Hlen.
  set (padded := replicate _ x00 ++ pss_repr).
  assert (Hpadded : size padded = (key_bits + 7) / 8).
  { unfold padded. rewrite size_app, size_replicate. lia. }
  enough (Hunmask : pss_verify_unmask padded message_hash key_bits h
                    = pss_verify_unmask pss_repr message_hash key_bits h).
  { unfold pss_verify, bind. now rewrite Hunmask. }
  unfold pss_verify_unmask. cbv zeta.
  destruct (key_bits <? _); [reflexivity |].
  destruct (negb _); [reflexivity |].
  destruct (Z.lt_ge_cases (key_bits + 7) (2 ^ 64)) as [Hfit | Hwrap].
  - (* the byte count is representable *)
    size_t. set (K := (key_bits + 7) / 8) in *.
    replace (K <? size padded) with false by lia.
    replace (size padded <=? 1) with false by lia.
    replace (K <? size pss_repr) with false by lia.
    replace (size pss_repr <=? 1) with false by lia.
    replace (size padded <? K) with false by lia.
    cbn [orb].
    rewrite !vec_get_last by lia.
    assert (Hlast : last padded = last pss_repr).
    { unfold padded. rewrite last_app.
      destruct (last pss_repr) eqn:E; [reflexivity |].
      apply last_None in E. rewrite E in Hlen.
      change (size []) with 0 in Hlen. lia. }
    rewrite Hlast.
    destruct (last pss_repr) as [b |]; [| reflexivity].
    rewrite !(bind_lift_returns _ _ _ b eq_refl).
    destruct (negb _); [reflexivity |].
    rewrite bind_ret.
    destruct (Z.ltb_spec (size pss_repr) K) as [Hshort | Hfull].
    + pose proof (buffer_insert_zero_vector K pss_repr ltac:(lia)) as Hinsert.
      rewrite (bind_lift_returns _ _ _ _ Hinsert). reflexivity.
    + rewrite bind_ret. unfold padded.
      replace (Z.to_nat _) with 0%nat by lia. reflexivity.
  - (* [key_bits + 7] wraps around: every block is too long *)
    assert (Hzero : (key_bits +w 7) / 8 = 0).
    { unfold SizeT.add, SizeT.wrap, SizeT.modulus. lia. }
    rewrite Hzero.
    replace (0 <? size padded) with true by lia.
    replace (0 <? size pss_repr) with true by lia.
    reflexivity.
Qed.

(** *** The separator scan *)

Lemma bind_inv {S A B} (m : M S A) (f : A -> M S B) s b s'' :
  bind m f s = (Returns b, s'') ->
  exists a s', m s = (Returns a, s') /\ f a s' = (Returns b, s'').
Proof.
  unfold bind. destruct (m s) as [[a | e |] s']; intros Hrun; try discriminate.
  now exists a, s'.
Qed.

Lemma lift_inv {S A} (o : outcome A) (s s' : S) a :
  lift o s = (Returns a, s') -> o = Returns a /\ s' = s.
Proof. unfold lift. intros [= -> ->]. now split. Qed.

(** The mask loop returns a buffer of the length it was given. *)
Lemma mgf1_loop_length fuel : forall seed out counter h r h',
  mgf1_loop fuel seed out counter h = (Returns r, h') -> length r = length out.
Proof.
  induction fuel as [| fuel IH]; intros seed out counter h r h' Hrun;
    cbn [mgf1_loop] in Hrun.
  - now injection Hrun as <- _.
  - destruct out as [| b out]; [now injection Hrun as <- _ |].
    set (l := b :: out) in *.
    apply bind_inv in Hrun as (_ & h1 & _ & Hrun).
    apply bind_inv in Hrun as (_ & h2 & _ & Hrun).
    apply bind_inv in Hrun as (buffer & h3 & _ & Hrun).
    apply bind_inv in Hrun as (rest & h4 & Hrest & Hrun).
    injection Hrun as <- _. apply IH in Hrest.
    unfold xor_buf. rewrite length_app, length_zip_with, length_take, Hrest, length_drop.
    subst l. cbn [length]. lia.
Qed.

(** Masking in place keeps the size of the buffer, and succeeds only on a
    range that lies inside it. *)
Lemma mgf1_mask_inv inp buf out_len h r h' :
  0 <= out_len ->
  mgf1_mask inp buf out_len h = (Returns r, h') ->
  out_len <= size buf /\ size r = size buf.
Proof.
  intros Hlen Hrun. unfold mgf1_mask in Hrun.
  apply bind_inv in Hrun as (out & h1 & Hread & Hrun).
  apply bind_inv in Hrun as (masked & h2 & Hloop & Hrun).
  apply lift_inv in Hread as [Hread ->]. apply lift_inv in Hrun as [Hwrite ->].
  apply mgf1_loop_length in Hloop.
  unfold read_mem in Hread. unfold write_mem in Hwrite.
  destruct (Z.leb_spec (0 + out_len) (size buf)) as [Hin |]; [| discriminate].
  injection Hread as <-.
  destruct (0 + size masked <=? size buf); [| discriminate].
  injection Hwrite as <-.
  split; [lia |].
  rewrite length_take, length_drop in Hloop.
  unfold size in *. rewrite length_app, length_drop. lia.
Qed.

Lemma vec_set_inv (v : list byte) i b r :
  vec_set v i b = Returns r -> size r = size v.
Proof.
  unfold vec_set. destruct (i <? size v); [| discriminate].
  intros [= <-]. unfold size. now rewrite length_insert.
Qed.

Lemma read_mem_inv (v : list byte) off len r :
  read_mem v off len = Returns r -> off + len <= size v.
Proof. unfold read_mem. destruct (Z.leb_spec (off + len) (size v)); [easy | discriminate]. Qed.

Lemma write_mem_inv (v : list byte) off data r :
  0 <= off -> write_mem v off data = Returns r -> size r = size v.
Proof.
  intros Hoff. unfold write_mem.
  destruct (Z.leb_spec (off + size data) (size v)) as [Hin |]; [| discriminate].
  intros [= <-]. unfold size in *.
  rewrite !length_app, length_take, length_drop. lia.
Qed.

(** When the structural checks pass, the data block and the digest field
    lie inside the buffer handed on to the scan. *)
Lemma pss_verify_unmask_inv pss_repr message_hash key_bits h coded DB_size h' :
  pss_verify_unmask pss_repr message_hash key_bits h
  = (Returns (Some (coded, DB_size)), h') ->
  0 <= DB_size /\ DB_size + Z.of_nat output_length <= size coded
  /\ size coded < 2 ^ 61.
Proof.
  unfold pss_verify_unmask. cbv zeta. intros Hrun.
  pose proof (key_bytes_range key_bits) as Hkb.
  destruct (key_bits <? _); [discriminate |].
  destruct (negb _); [discriminate |].
  destruct (_ || _) eqn:Hlen; [discriminate |].
  apply orb_false_iff in Hlen as [Hle Hgt].
  apply Z.ltb_ge in Hle. apply Z.leb_gt in Hgt.
  apply bind_inv in Hrun as (last & h1 & _ & Hrun).
  destruct (negb _); [discriminate |].
  apply bind_inv in Hrun as (coded0 & h2 & Hcoded & Hrun).
  assert (Hsize0 : size coded0 < 2 ^ 61).
  { destruct (size pss_repr <? _).
    - apply lift_inv in Hcoded as [Hcoded _].
      apply write_mem_inv in Hcoded; [| apply wrap_range].
      rewrite size_zero_vector in Hcoded; lia.
    - unfold ret in Hcoded. injection Hcoded as <- _. lia. }
  clear Hcoded.
  apply bind_inv in Hrun as (c0 & h3 & _ & Hrun).
  destruct (_ <? _); [discriminate |].
  set (n := size coded0 -w Z.of_nat output_length -w 1) in *.
  assert (Hn : 0 <= n) by apply wrap_range.
  apply bind_inv in Hrun as (H & h4 & Hread & Hrun).
  apply lift_inv in Hread as [Hread ->]. apply read_mem_inv in Hread.
  apply bind_inv in Hrun as (coded1 & h5 & Hmask & Hrun).
  apply bind_inv in Hrun as (DB0 & h6 & _ & Hrun).
  apply bind_inv in Hrun as (coded2 & h7 & Hset & Hrun).
  apply lift_inv in Hset as [Hset ->].
  injection Hrun as <- <- _.
  apply vec_set_inv in Hset.
  apply mgf1_mask_inv in Hmask; [| exact Hn].
  lia.
Qed.

Lemma scan_separator_zeros DB : forall j,
  Forall (fun b => b = x00) DB -> scan_separator DB j = Some 0.
Proof.
  induction DB as [| b DB IH]; intros j Hzero; cbn [scan_separator].
  - reflexivity.
  - inversion Hzero as [| ? ? -> Hrest]; subst.
    rewrite bool_decide_false by discriminate.
    rewrite bool_decide_true by reflexivity.
    now apply IH.
Qed.

Lemma scan_separator_bad_byte DB : forall j k b,
  DB !! k = Some b -> b <> x00 -> b <> x01 ->
  (forall i, (i < k)%nat -> DB !! i <> Some x01) ->
  scan_separator DB j = None.
Proof.
  induction DB as [| d DB IH]; intros j k b Hk Hb0 Hb1 Hbefore; [discriminate |].
  cbn [scan_separator]. destruct k as [| k].
  - injection Hk as ->.
    rewrite bool_decide_false by assumption.
    now rewrite bool_decide_false by assumption.
  - rewrite bool_decide_false by (intros ->; now apply (Hbefore 0%nat); [lia |]).
    destruct (bool_decide (d = x00)); [| reflexivity].
    apply (IH _ k b); try assumption.
    intros i Hi. apply (Hbefore (S i)). lia.
Qed.

(** C3. Separator scan: for a block that passes the structural checks, so
    that [pss_verify_unmask] hands on the unmasked buffer and [DB_size],
    [pss_verify] returns [false] when the data block [DB] --- the first
    [DB_size] bytes, after the MGF1 XOR and the clearing of the top bits ---
    is all zero, and when a byte other than [0x00] and [0x01] occurs in it
    before the first [0x01]. *)
Theorem pss_verify_separator_scan pss_repr message_hash key_bits out h coded DB_size h1 :
  pss_verify_unmask pss_repr message_hash key_bits h
  = (Returns (Some (coded, DB_size)), h1) ->
  let DB := take (Z.to_nat DB_size) coded in
  Forall (fun b => b = x00) DB
  \/ (exists k b, DB !! k = Some b /\ b <> x00 /\ b <> x01
                 /\ forall i, (i < k)%nat -> DB !! i <> Some x01) ->
  pss_verify pss_repr message_hash key_bits out h = (Returns (false, None), h1).
Proof.
  intros Hunmask DB Hscan.
  pose proof (pss_verify_unmask_inv _ _ _ _ _ _ _ Hunmask) as (Hsize & Hfield & _).
  unfold pss_verify. rewrite (bind_returns _ _ _ _ _ Hunmask).
  unfold pss_verify_check. cbv zeta.
  assert (Hread : read_mem coded 0 DB_size = Returns DB).
  { unfold read_mem. now replace (0 + DB_size <=? size coded) with true by lia. }
  rewrite (bind_lift_returns _ _ _ _ Hread).
  destruct Hscan as [Hzero | (k & b & Hk & Hb0 & Hb1 & Hbefore)].
  - now rewrite scan_separator_zeros.
  - now rewrite (scan_separator_bad_byte DB 0 k b).
Qed.

(** *** Verification always returns *)

Lemma vec_get_defined (v : list byte) i :
  0 <= i < size v -> exists b, vec_get v i = Returns b.
Proof.
  intros Hi. unfold vec_get.
  destruct (lookup_lt_is_Some_2 v (Z.to_nat i)) as [b Hb]; [unfold size in Hi; lia |].
  exists b. now rewrite Hb.
Qed.


Lemma read_mem_defined (v : list byte) off len :
  0 <= off -> 0 <= len -> off + len <= size v ->
  exists r, read_mem v off len = Returns r /\ size r = len.
Proof.
  intros Hoff Hlen Hin. unfold read_mem.
  replace (off + len <=? size v) with true by lia.
  eexists. split; [reflexivity |].
  unfold size in *. rewrite length_take, length_drop. lia.
Qed.




(** Where the scan stops. *)
Lemma scan_separator_range DB : forall j salt_offset,
  0 <= j -> j + size DB < 2 ^ 64 ->
  scan_separator DB j = Some salt_offset ->
  salt_offset = 0 \/ j < salt_offset <= j + size DB.
Proof.
  induction DB as [| b DB IH]; intros j salt_offset Hj Hbound Hscan;
    cbn [scan_separator] in Hscan.
  - left. congruence.
  - rewrite size_cons in *. pose proof (size_nonneg DB).
    destruct (bool_decide (b = x01)).
    + injection Hscan as <-. size_t. right. lia.
    + destruct (bool_decide (b = x00)); [| discriminate].
      size_t. apply IH in Hscan; lia.
Qed.



End EncodeVerify.

(** ** The adapters *)

Section Adapters.
Context {HA : HashAlgorithm}.

(** C8. Salt-size policy: on an engine built with a required salt length,
    a block whose hash comparison succeeds ([pss_verify] returns [true] and
    reports the recovered salt length) but whose recovered salt length is not
    [m_salt_size] is rejected; the hash object that comes back is the one
    [pss_verify] leaves after its comparison, so the check comes after it. *)
Theorem pssr_verify_salt_policy (this : PSSR.t) coded raw key_bits salt_size h' :
  PSSR.m_required_salt_len this = true ->
  pss_verify coded raw key_bits true (PSSR.m_hash this)
  = (Returns (true, Some salt_size), h') ->
  salt_size <> PSSR.m_salt_size this ->
  PSSR.verify coded raw key_bits this
  = (Returns false,
     {| PSSR.m_hash := h'; PSSR.m_salt_size := PSSR.m_salt_size this;
        PSSR.m_required_salt_len := true |}).
Proof.
  intros Hreq Hverify Hsalt.
  unfold PSSR.verify, bind, PSSR.on_m_hash. rewrite Hverify. cbn [fst snd].
  rewrite Hreq. replace (salt_size =? _) with false by lia.
  reflexivity.
Qed.

(** The same policy in the raw-buffering variant. *)
Lemma pssr_raw_verify_salt_policy (this : PSSR_Raw.t) coded raw key_bits salt_size h' :
  PSSR_Raw.m_required_salt_len this = true ->
  pss_verify coded raw key_bits true (PSSR_Raw.m_hash this)
  = (Returns (true, Some salt_size), h') ->
  salt_size <> PSSR_Raw.m_salt_size this ->
  fst (PSSR_Raw.verify coded raw key_bits this) = Returns false.
Proof.
  intros Hreq Hverify Hsalt.
  unfold PSSR_Raw.verify, bind, PSSR_Raw.on_m_hash. rewrite Hverify. cbn [fst snd].
  rewrite Hreq. replace (salt_size =? _) with false by lia.
  reflexivity.
Qed.

(** Without a required salt length the result of [pss_verify] is passed on. *)
Lemma pssr_verify_any_salt (this : PSSR.t) coded raw key_bits r h' :
  PSSR.m_required_salt_len this = false ->
  pss_verify coded raw key_bits true (PSSR.m_hash this) = (Returns r, h') ->
  fst (PSSR.verify coded raw key_bits this) = Returns (fst r).
Proof.
  intros Hreq Hverify.
  unfold PSSR.verify, bind, PSSR.on_m_hash. rewrite Hverify. cbn [fst snd].
  now rewrite Hreq.
Qed.

Lemma pssr_raw_raw_data_run (this : PSSR_Raw.t) :
  PSSR_Raw.raw_data this
  = (if size (PSSR_Raw.m_msg this) =? Z.of_nat output_length
     then Returns (PSSR_Raw.m_msg this)
     else Throws (Encoding_Error "PSSR_Raw Bad input length, did not match hash"),
     {| PSSR_Raw.m_hash := PSSR_Raw.m_hash this;
        PSSR_Raw.m_salt_size := PSSR_Raw.m_salt_size this;
        PSSR_Raw.m_required_salt_len := PSSR_Raw.m_required_salt_len this;
        PSSR_Raw.m_msg := [] |}).
Proof. unfold PSSR_Raw.raw_data. now destruct (size _ =? _). Qed.

(** C10. [PSSR_Raw::raw_data] always leaves the message buffer empty: it
    returns the buffered bytes when their number is the output length of the
    hash and throws an encoding error otherwise, and in both cases the bytes
    are gone, so that a second call after a failure fails again. *)
Theorem pssr_raw_raw_data_clears_buffer (this : PSSR_Raw.t) :
  let error := Encoding_Error "PSSR_Raw Bad input length, did not match hash" in
  PSSR_Raw.m_msg (snd (PSSR_Raw.raw_data this)) = []
  /\ fst (PSSR_Raw.raw_data this)
     = (if size (PSSR_Raw.m_msg this) =? Z.of_nat output_length
        then Returns (PSSR_Raw.m_msg this)
        else Throws error)
  /\ fst (PSSR_Raw.raw_data (snd (PSSR_Raw.raw_data this))) = Throws error.
Proof.
  intros error. rewrite !pssr_raw_raw_data_run. cbn [fst snd PSSR_Raw.m_msg].
  repeat split.
  pose proof output_length_pos. change (size []) with 0.
  now replace (0 =? Z.of_nat output_length) with false by lia.
Qed.

End Adapters.

(** ** The code run on concrete blocks *)

Section Witnesses.
#[local] Existing Instance toy_hash.

Lemma pss_encode_verify_roundtrip_witness :
  buffered fresh_hash = []
  /\ size t_msg = 2
  /\ 8 * 2 + 8 * size t_salt + 9 <= 60
  /\ 60 + 7 < 2 ^ 64
  /\ (60 + 7) / 8 = (60 + 7) / 8
  /\ top_bits 60 = top_bits 60
  /\ exists EM h1 h2,
       pss_encode t_msg t_salt 60 fresh_hash = (Returns EM, h1)
       /\ pss_verify EM t_msg 60 true h1 = (Returns (true, Some (size t_salt)), h2).
Proof.
  repeat (split; [first [reflexivity | vm_compute; discriminate] |]).
  apply (pss_encode_verify_roundtrip t_msg t_salt 60 60 true fresh_hash);
    first [reflexivity | vm_compute; discriminate].
Defined.

Lemma pss_encode_layout_witness :
  buffered fresh_hash = []
  /\ size t_msg = 2
  /\ 8 * 2 + 8 * size t_salt + 9 <= 60
  /\ 60 + 7 < 2 ^ 64
  /\ exists EM h',
       pss_encode t_msg t_salt 60 fresh_hash = (Returns EM, h')
       /\ size EM = 8
       /\ EM !! 7%nat = Some xbc.
Proof.
  repeat (split; [first [reflexivity | vm_compute; discriminate] |]).
  destruct (pss_encode_layout t_msg t_salt 60 fresh_hash)
    as (EM & h' & Hrun & Hsize & _ & _ & _ & _ & _ & _ & _ & Hlast);
    try first [reflexivity | vm_compute; discriminate].
  exists EM, h'. repeat split; assumption.
Defined.

Lemma pss_verify_separator_scan_witness :
  pss_verify_unmask t_block_zero_DB t_msg 40 fresh_hash
  = (Returns (Some ([x00; x00; Byte.x11; Byte.x22; xbc], 2)), t_hash_unmasked)
  /\ Forall (fun b => b = x00) (take (Z.to_nat 2) [x00; x00; Byte.x11; Byte.x22; xbc])
  /\ pss_verify t_block_zero_DB t_msg 40 true fresh_hash
     = (Returns (false, None), t_hash_unmasked)
  /\ pss_verify_unmask t_block_bad_DB t_msg 40 fresh_hash
     = (Returns (Some ([Byte.x02; x01; Byte.x11; Byte.x22; xbc], 2)), t_hash_unmasked)
  /\ pss_verify t_block_bad_DB t_msg 40 true fresh_hash
     = (Returns (false, None), t_hash_unmasked).
Proof.
  assert (Hzero : pss_verify_unmask t_block_zero_DB t_msg 40 fresh_hash
                  = (Returns (Some ([x00; x00; Byte.x11; Byte.x22; xbc], 2)),
                     t_hash_unmasked))
    by (vm_compute; reflexivity).
  assert (Hbad : pss_verify_unmask t_block_bad_DB t_msg 40 fresh_hash
                 = (Returns (Some ([Byte.x02; x01; Byte.x11; Byte.x22; xbc], 2)),
                    t_hash_unmasked))
    by (vm_compute; reflexivity).
  split; [exact Hzero |]. split; [repeat constructor |].
  split; [| split; [exact Hbad |]].
  - apply (pss_verify_separator_scan _ _ _ true _ _ _ _ Hzero).
    left. repeat constructor.
  - apply (pss_verify_separator_scan _ _ _ true _ _ _ _ Hbad).
    right. exists 0%nat, Byte.x02.
    repeat split; [discriminate | discriminate | intros i Hi; lia].
Defined.

Lemma pss_verify_trailer_witness :
  last t_block_bad_trailer <> Some xbc
  /\ pss_verify t_block_bad_trailer t_msg 60 true fresh_hash
     = (Returns (false, None), fresh_hash).
Proof.
  split; [vm_compute; discriminate |].
  apply pss_verify_trailer. vm_compute. discriminate.
Defined.

Lemma pss_length_floor_witness :
  size t_msg = 2
  /\ 8 * 2 + 8 * size t_salt + 9 < 2 ^ 64
  /\ pss_encode t_msg t_salt 48 fresh_hash
     = (Throws (Encoding_Error "Cannot encode PSS string, output length too small"),
        fresh_hash)
  /\ (forall e, fst (pss_encode t_msg t_salt 49 fresh_hash) <> Throws e)
  /\ pss_verify t_block t_msg 24 true fresh_hash = (Returns (false, None), fresh_hash).
Proof.
  destruct (pss_length_floor t_msg t_salt) as (Hlow & Hhigh & Hverify);
    [reflexivity | vm_compute; reflexivity |].
  split; [reflexivity |]. split; [vm_compute; reflexivity |].
  split; [apply Hlow; vm_compute; reflexivity |].
  split; [intros e; apply Hhigh; vm_compute; discriminate |].
  apply Hverify. vm_compute. reflexivity.
Defined.

Lemma pss_digest_length_mismatch_witness :
  size [Byte.x12] <> 2
  /\ pss_encode [Byte.x12] t_salt 60 fresh_hash
     = (Throws (Encoding_Error "Cannot encode PSS string, input length invalid for hash"),
        fresh_hash)
  /\ pss_verify t_block [Byte.x12] 60 true fresh_hash = (Returns (false, None), fresh_hash).
Proof.
  destruct (pss_digest_length_mismatch [Byte.x12]) as (Hencode & Hverify);
    [vm_compute; discriminate |].
  split; [vm_compute; discriminate |]. split; [apply Hencode | apply Hverify].
Defined.

Lemma pss_verify_bad_length_witness :
  0 <= 40
  /\ (size [xbc] <= 1 \/ (40 + 7) / 8 < size [xbc])
  /\ pss_verify [xbc] t_msg 40 true fresh_hash = (Returns (false, None), fresh_hash)
  /\ calls (snd (pss_verify [xbc] t_msg 40 true fresh_hash)) = calls fresh_hash.
Proof.
  split; [lia |]. split; [left; vm_compute; discriminate |].
  apply pss_verify_bad_length; [lia | left; vm_compute; discriminate].
Defined.

Lemma pss_verify_left_padding_witness :
  0 <= 57 < 2 ^ 64
  /\ 1 < size t_block_short <= (57 + 7) / 8
  /\ pss_verify (replicate (Z.to_nat ((57 + 7) / 8 - size t_block_short)) x00
                  ++ t_block_short) t_msg 57 true fresh_hash
     = pss_verify t_block_short t_msg 57 true fresh_hash.
Proof.
  split; [lia |]. split; [vm_compute; split; [reflexivity | discriminate] |].
  apply pss_verify_left_padding;
    [lia | vm_compute; split; [reflexivity | discriminate]].
Defined.

Lemma pssr_verify_salt_policy_witness :
  PSSR.m_required_salt_len t_engine = true
  /\ pss_verify t_block t_msg 60 true (PSSR.m_hash t_engine)
     = (Returns (true, Some 3), t_hash_verified)
  /\ 3 <> PSSR.m_salt_size t_engine
  /\ PSSR.verify t_block t_msg 60 t_engine
     = (Returns false,
        {| PSSR.m_hash := t_hash_verified; PSSR.m_salt_size := 2;
           PSSR.m_required_salt_len := true |}).
Proof.
  assert (Hverify : pss_verify t_block t_msg 60 true (PSSR.m_hash t_engine)
                    = (Returns (true, Some 3), t_hash_verified))
    by (vm_compute; reflexivity).
  split; [reflexivity |]. split; [exact Hverify |]. split; [discriminate |].
  apply (pssr_verify_salt_policy t_engine t_block t_msg 60 3 t_hash_verified);
    [reflexivity | exact Hverify | discriminate].
Defined.

(** *** Further runs *)

Example pss_encode_t_block :
  pss_encode t_msg t_salt 60 fresh_hash = (Returns t_block, t_hash_verified).
Proof. vm_compute. reflexivity. Qed.

Example pss_verify_t_block :
  fst (pss_verify t_block t_msg 60 true fresh_hash) = Returns (true, Some 3).
Proof. vm_compute. reflexivity. Qed.

(** Same number of bytes, fewer masked top bits: the block is rejected,
    which is why the round trip asks for the same masking. *)
Example pss_verify_t_block_other_top_bits :
  (64 + 7) / 8 = (60 + 7) / 8
  /\ fst (pss_verify t_block t_msg 64 true fresh_hash) = Returns (false, None).
Proof. split; vm_compute; reflexivity. Qed.

(** A block that lost its leading zero byte in a conversion to an integer
    is accepted as it is. *)
Example pss_verify_t_block_short :
  fst (pss_verify t_block_short t_msg 57 true fresh_hash) = Returns (true, Some 3).
Proof. vm_compute. reflexivity. Qed.

(** One flipped bit in the salt region. *)
Example pss_verify_t_block_tampered :
  fst (pss_verify (<[5%nat := Byte.x06]> t_block) t_msg 60 true fresh_hash)
  = Returns (false, None).
Proof. vm_compute. reflexivity. Qed.

(** Without a required salt length, and with the matching one, the engine
    accepts [t_block]. *)
Example pssr_verify_t_block :
  fst (PSSR.verify t_block t_msg 60 (PSSR.create fresh_hash)) = Returns true
  /\ fst (PSSR.verify t_block t_msg 60 (PSSR.create_with_salt fresh_hash 3))
     = Returns true.
Proof. split; vm_compute; reflexivity. Qed.

(** The raw-buffering variant hands the buffered digest through, once. *)
Example pssr_raw_update_raw_data :
  let this := snd (PSSR_Raw.update t_msg (PSSR_Raw.create fresh_hash)) in
  fst (PSSR_Raw.raw_data this) = Returns t_msg
  /\ PSSR_Raw.m_msg (snd (PSSR_Raw.raw_data this)) = [].
Proof. split; vm_compute; reflexivity. Qed.

End Witnesses.

(** * Further properties *)

Section HashState.
Context {HA : HashAlgorithm}.

Lemma mgf1_loop_state fuel : forall seed out counter h r h',
  mgf1_loop fuel seed out counter h = (Returns r, h') ->
  h' = h \/ buffered h' = [].
Proof.
  induction fuel as [| fuel IH]; intros seed out counter h r h' Hrun;
    cbn [mgf1_loop] in Hrun.
  - left. now injection Hrun.
  - destruct out as [| b out]; [left; now injection Hrun |].
    apply bind_inv in Hrun as (_ & h1 & _ & Hrun).
    apply bind_inv in Hrun as (_ & h2 & _ & Hrun).
    apply bind_inv in Hrun as (buffer & h3 & Hfinal & Hrun).
    apply bind_inv in Hrun as (rest & h4 & Hrest & Hrun).
    injection Hrun as _ <-. injection Hfinal as _ <-.
    right. now destruct (IH _ _ _ _ _ _ Hrest) as [-> | Hbuf].
Qed.

Lemma mgf1_mask_state inp buf out_len h r h' :
  mgf1_mask inp buf out_len h = (Returns r, h') ->
  h' = h \/ buffered h' = [].
Proof.
  unfold mgf1_mask. intros Hrun.
  apply bind_inv in Hrun as (out & h1 & Hread & Hrun).
  apply bind_inv in Hrun as (masked & h2 & Hloop & Hrun).
  apply lift_inv in Hread as [_ ->]. apply lift_inv in Hrun as [_ ->].
  now apply mgf1_loop_state in Hloop.
Qed.

Lemma pss_verify_unmask_state pss_repr message_hash key_bits h r h' :
  pss_verify_unmask pss_repr message_hash key_bits h = (Returns r, h') ->
  h' = h \/ buffered h' = [].
Proof.
  unfold pss_verify_unmask. cbv zeta. intros Hrun.
  destruct (key_bits <? _); [left; now injection Hrun |].
  destruct (negb _); [left; now injection Hrun |].
  destruct (_ || _); [left; now injection Hrun |].
  apply bind_inv in Hrun as (last & h1 & Hlast & Hrun).
  apply lift_inv in Hlast as [_ ->].
  destruct (negb _); [left; now injection Hrun |].
  apply bind_inv in Hrun as (coded0 & h2 & Hcoded & Hrun).
  assert (h2 = h) as ->.
  { destruct (size pss_repr <? _).
    - now apply lift_inv in Hcoded.
    - now injection Hcoded. }
  clear Hcoded.
  apply bind_inv in Hrun as (c0 & h3 & Hc0 & Hrun).
  apply lift_inv in Hc0 as [_ ->].
  destruct (_ <? _); [left; now injection Hrun |].
  apply bind_inv in Hrun as (H & h4 & Hread & Hrun).
  apply lift_inv in Hread as [_ ->].
  apply bind_inv in Hrun as (coded1 & h5 & Hmask & Hrun).
  apply bind_inv in Hrun as (DB0 & h6 & HDB0 & Hrun).
  apply lift_inv in HDB0 as [_ ->].
  apply bind_inv in Hrun as (coded2 & h7 & Hset & Hrun).
  apply lift_inv in Hset as [_ ->].
  injection Hrun as _ <-.
  now apply mgf1_mask_state in Hmask.
Qed.

Lemma pss_verify_check_state coded DB_size message_hash out h r h' :
  pss_verify_check coded DB_size message_hash out h = (Returns r, h') ->
  (r = (false, None) /\ h' = h) \/ buffered h' = [].
Proof.
  unfold pss_verify_check. cbv zeta. intros Hrun.
  apply bind_inv in Hrun as (DB & h1 & HDB & Hrun).
  apply lift_inv in HDB as [_ ->].
  destruct (scan_separator DB 0) as [salt_offset |];
    [| left; now injection Hrun as <- <-].
  destruct (salt_offset =? 0); [left; now injection Hrun as <- <- |].
  apply bind_inv in Hrun as (_ & h2 & _ & Hrun).
  apply bind_inv in Hrun as (_ & h3 & _ & Hrun).
  apply bind_inv in Hrun as (salt & h4 & Hsalt & Hrun).
  apply bind_inv in Hrun as (_ & h5 & _ & Hrun).
  apply bind_inv in Hrun as (H2 & h6 & Hfinal & Hrun).
  apply bind_inv in Hrun as (H & h7 & HH & Hrun).
  apply lift_inv in HH as [_ ->].
  injection Hrun as _ <-. injection Hfinal as _ <-.
  now right.
Qed.

Lemma pss_verify_state pss_repr message_hash key_bits out h r h' :
  pss_verify pss_repr message_hash key_bits out h = (Returns r, h') ->
  (h' = h \/ buffered h' = []) /\ (fst r = true -> buffered h' = []).
Proof.
  unfold pss_verify. intros Hrun.
  apply bind_inv in Hrun as (u & h1 & Hunmask & Hrun).
  apply pss_verify_unmask_state in Hunmask.
  destruct u as [[coded DB_size] |].
  - apply pss_verify_check_state in Hrun.
    destruct Hrun as [[-> ->] | Hbuf]; [| now split; [right |]].
    split; [assumption | discriminate].
  - injection Hrun as <- <-. split; [assumption | discriminate].
Qed.

Lemma pss_encode_state msg salt output_bits h o h' :
  pss_encode msg salt output_bits h = (o, h') ->
  (forall e, o = Throws e -> h' = h)
  /\ (forall EM, o = Returns EM -> buffered h' = []).
Proof.
  unfold pss_encode. cbv zeta. intros Hrun.
  destruct (negb _).
  { injection Hrun as <- <-. split; [reflexivity | discriminate]. }
  destruct (output_bits <? _).
  { injection Hrun as <- <-. split; [reflexivity | discriminate]. }
  split.
  - intros e ->. exfalso.
    apply (f_equal fst) in Hrun. cbn [fst] in Hrun.
    revert Hrun. generalize e. generalize h.
    repeat (apply no_throw_bind; [auto with no_throw | intros ?]).
    apply no_throw_ret.
  - intros EM ->.
    apply bind_inv in Hrun as (_ & h1 & _ & Hrun).
    apply bind_inv in Hrun as (_ & h2 & _ & Hrun).
    apply bind_inv in Hrun as (_ & h3 & _ & Hrun).
    apply bind_inv in Hrun as (H & h4 & Hfinal & Hrun).
    injection Hfinal as _ <-.
    apply bind_inv in Hrun as (EM1 & h5 & E1 & Hrun). apply lift_inv in E1 as [_ ->].
    apply bind_inv in Hrun as (EM2 & h6 & E2 & Hrun). apply lift_inv in E2 as [_ ->].
    apply bind_inv in Hrun as (seed & h7 & E3 & Hrun). apply lift_inv in E3 as [_ ->].
    apply bind_inv in Hrun as (EM3 & h8 & Hmask & Hrun).
    apply bind_inv in Hrun as (EM0 & h9 & E4 & Hrun). apply lift_inv in E4 as [_ ->].
    apply bind_inv in Hrun as (EM4 & h10 & E5 & Hrun). apply lift_inv in E5 as [_ ->].
    apply bind_inv in Hrun as (EM5 & h11 & E6 & Hrun). apply lift_inv in E6 as [_ ->].
    apply bind_inv in Hrun as (EM6 & h12 & E7 & Hrun). apply lift_inv in E7 as [_ ->].
    injection Hrun as _ <-.
    now destruct (mgf1_mask_state _ _ _ _ _ _ Hmask) as [-> | Hbuf].
Qed.


End HashState.


Section Accepted.
Context {HA : HashAlgorithm}.

(** A byte that passes the test on its leading zero bits is not changed by
    clearing them. *)
Lemma and_ff_shr_id b n :
  0 <= n -> high_bit b <= 8 - n -> and_ff_shr b n = b.
Proof.
  intros Hn Hhigh. apply byte_bits_eq. intros i Hi.
  rewrite and_ff_shr_testbit by lia.
  destruct (Z.ltb_spec (i + n) 8) as [| Hge]; [apply andb_true_r |].
  rewrite andb_false_r. symmetry.
  unfold high_bit in Hhigh. pose proof (byte.unsigned_range b) as Hr.
  destruct (Z.eqb_spec (byte.unsigned b) 0) as [-> | Hne].
  - apply Z.testbit_0_l.
  - apply Z.bits_above_log2; lia.
Qed.

(** Masking undoes unmasking on a data block whose first byte has its top
    bits clear. *)
Lemma mask_unmask_clear_top n c0 DB mask :
  0 <= n -> and_ff_shr c0 n = c0 ->
  length mask = S (length DB) ->
  clear_top n (xor_buf (clear_top n (xor_buf (c0 :: DB) mask)) mask) = c0 :: DB.
Proof.
  intros Hn Hc0 Hlen. destruct mask as [| m mask]; [discriminate |].
  cbn [xor_buf zip_with clear_top]. rewrite and_ff_shr_unmask by lia.
  f_equal; [assumption |].
  apply xor_buf_involutive. cbn [length] in Hlen. lia.
Qed.

(** What the structural part of [pss_verify] has established when it hands
    a buffer on: the sizes fit, the block padded on the left to
    [KEY_BYTES] bytes splits into data block, digest field and trailer, its
    first byte has enough leading zero bits, and the buffer handed on is the
    padded block with its data block masked and its first byte cleared. *)
Lemma pss_verify_unmask_shape pss_repr message_hash key_bits h coded DB_size h' :
  0 <= key_bits < 2 ^ 64 ->
  pss_verify_unmask pss_repr message_hash key_bits h
  = (Returns (Some (coded, DB_size)), h') ->
  let K := (key_bits + 7) / 8 in
  let padded := replicate (Z.to_nat (K - size pss_repr)) x00 ++ pss_repr in
  key_bits + 7 < 2 ^ 64
  /\ size message_hash = Z.of_nat output_length
  /\ 1 < size pss_repr <= K
  /\ DB_size = K - Z.of_nat output_length - 1
  /\ 1 <= DB_size
  /\ exists c0 DB H masked,
      padded = (c0 :: DB) ++ H ++ [xbc]
      /\ size (c0 :: DB) = DB_size
      /\ length H = output_length
      /\ high_bit c0 <= 8 - top_bits key_bits
      /\ mgf1_mask H padded DB_size h = (Returns masked, h')
      /\ coded = clear_top (top_bits key_bits) masked.
Proof.
  intros Hkey Hrun K padded. unfold pss_verify_unmask in Hrun. cbv zeta in Hrun.
  pose proof (key_bytes_range key_bits) as Hkb.
  destruct (Z.ltb_spec key_bits (8 *w Z.of_nat output_length +w 9)) as [| Hfloor];
    [discriminate |].
  destruct (Z.eqb_spec (size message_hash) (Z.of_nat output_length)) as [Hmsg |];
    [| discriminate].
  cbn [negb] in Hrun.
  destruct (_ || _) eqn:Hlen; [discriminate |].
  apply orb_false_iff in Hlen as [Hle Hgt].
  apply Z.ltb_ge in Hle. apply Z.leb_gt in Hgt.
  assert (Hfit : key_bits + 7 < 2 ^ 64).
  { destruct (Z.lt_ge_cases (key_bits + 7) (2 ^ 64)) as [| Hwrap]; [assumption |].
    assert ((key_bits +w 7) / 8 = 0)
      by (unfold SizeT.add, SizeT.wrap, SizeT.modulus; lia).
    lia. }
  assert (HK : (key_bits +w 7) / 8 = K) by (unfold SizeT.add; now rewrite wrap_small by lia).
  rewrite HK in *. clear HK.
  assert (Htop : 8 *w K -w key_bits = top_bits key_bits).
  { unfold SizeT.mul, SizeT.sub, top_bits. fold K.
    rewrite (wrap_small (8 * K)) by lia. apply wrap_small. subst K. lia. }
  rewrite Htop in Hrun.
  assert (Htb : 0 <= top_bits key_bits <= 7) by (unfold top_bits; lia).
  (* trailer *)
  apply bind_inv in Hrun as (tr & h1 & Hlast & Hrun).
  apply lift_inv in Hlast as [Hlast ->].
  unfold SizeT.sub at 1 in Hlast. rewrite wrap_small in Hlast by lia.
  rewrite vec_get_last in Hlast by lia.
  destruct (last pss_repr) as [b |] eqn:Hb; [| discriminate].
  injection Hlast as ->.
  destruct (decide (tr = xbc)) as [-> | Hne];
    [rewrite bool_decide_true in Hrun by reflexivity
    | rewrite bool_decide_false in Hrun by assumption; discriminate].
  cbn [negb] in Hrun.
  apply last_Some in Hb as [front ->].
  (* padding *)
  apply bind_inv in Hrun as (coded0 & h2 & Hcoded & Hrun).
  assert (coded0 = padded /\ h2 = h) as [-> ->].
  { destruct (Z.ltb_spec (size (front ++ [xbc])) K).
    - apply lift_inv in Hcoded as [Hcoded ->].
      unfold SizeT.sub in Hcoded. rewrite wrap_small in Hcoded by lia.
      rewrite buffer_insert_zero_vector in Hcoded by lia.
      now injection Hcoded as <-.
    - injection Hcoded as <- <-. split; [| reflexivity].
      unfold padded. now replace (Z.to_nat _) with 0%nat by lia. }
  clear Hcoded.
  assert (Hsize : size padded = K).
  { unfold padded. rewrite size_app, size_replicate. lia. }
  (* first byte *)
  apply bind_inv in Hrun as (c0 & h3 & Hc0 & Hrun).
  apply lift_inv in Hc0 as [Hc0 ->].
  pose proof (high_bit_range c0) as Hhr.
  unfold SizeT.sub at 1 in Hrun. rewrite (wrap_small (8 - high_bit c0)) in Hrun by lia.
  destruct (Z.ltb_spec (8 - high_bit c0) (top_bits key_bits)) as [| Hhigh];
    [discriminate |].
  (* the data block and the digest field *)
  rewrite Hsize in Hrun.
  set (n := K -w Z.of_nat output_length -w 1) in *.
  assert (Hn0 : 0 <= n) by apply wrap_range.
  apply bind_inv in Hrun as (H & h4 & Hread & Hrun).
  apply lift_inv in Hread as [Hread ->].
  pose proof (read_mem_inv _ _ _ _ Hread) as Hin. rewrite Hsize in Hin.
  assert (Hn : n = K - Z.of_nat output_length - 1 /\ 1 <= n).
  { assert (HL : Z.of_nat output_length <= K) by lia.
    assert (Hn' : n = SizeT.wrap (K - Z.of_nat output_length - 1)).
    { subst n. unfold SizeT.sub. now rewrite (wrap_small (K - _)) by lia. }
    assert (HL1 : Z.of_nat output_length + 1 <= K).
    { destruct (Z.eq_dec K (Z.of_nat output_length)) as [Heq |]; [| lia].
      rewrite Heq in Hn'. unfold SizeT.wrap, SizeT.modulus in Hn'. lia. }
    assert (H8K : 8 * K <= key_bits + 7) by (subst K; lia).
    assert (Hfloor' : 8 *w Z.of_nat output_length +w 9 = 8 * Z.of_nat output_length + 9).
    { unfold SizeT.mul, SizeT.add.
      rewrite (wrap_small (8 * _)) by lia. apply wrap_small. lia. }
    rewrite Hfloor' in Hfloor.
    assert (HK2 : Z.of_nat output_length + 2 <= K) by (subst K; lia).
    rewrite Hn'. rewrite wrap_small by lia. lia. }
  destruct Hn as [Hn Hn1].
  apply bind_inv in Hrun as (coded1 & h5 & Hmask & Hrun).
  apply bind_inv in Hrun as (DB0 & h6 & HDB0 & Hrun).
  apply lift_inv in HDB0 as [HDB0 ->].
  apply bind_inv in Hrun as (coded2 & h7 & Hset & Hrun).
  apply lift_inv in Hset as [Hset ->].
  injection Hrun as <- <- <-.
  repeat (split; [first [assumption | lia] |]).
  (* the three fields of the padded block *)
  assert (Hpadded : padded = (replicate (Z.to_nat (K - size (front ++ [xbc]))) x00 ++ front)
                               ++ [xbc]) by (unfold padded; now rewrite app_assoc).
  set (body := replicate _ x00 ++ front) in Hpadded.
  assert (Hbody : size body = n + Z.of_nat output_length).
  { rewrite Hpadded, size_app in Hsize. change (size [xbc]) with 1 in Hsize. lia. }
  assert (Hfields : padded = take (Z.to_nat n) body ++ drop (Z.to_nat n) body ++ [xbc]).
  { now rewrite app_assoc, take_drop. }
  assert (Htake : size (take (Z.to_nat n) body) = n).
  { unfold size in *. rewrite length_take. lia. }
  assert (Hdrop : size (drop (Z.to_nat n) body) = Z.of_nat output_length).
  { unfold size in *. rewrite length_drop. lia. }
  rewrite Hfields in Hread.
  rewrite (read_mem_middle _ (drop (Z.to_nat n) body) [xbc]) in Hread by lia.
  injection Hread as <-.
  destruct (take (Z.to_nat n) body) as [| d0 DB] eqn:HDB.
  { change (size []) with 0 in Htake. lia. }
  assert (d0 = c0) as ->.
  { rewrite Hfields in Hc0. cbn in Hc0. now injection Hc0. }
  exists c0, DB, (drop (Z.to_nat n) body), coded1.
  repeat split; try assumption.
  - unfold size in Hdrop. lia.
  - lia.
  - (* the first byte of the masked buffer is cleared *)
    unfold vec_set in Hset. destruct (0 <? size coded1); [| discriminate].
    injection Hset as <-. unfold vec_get in HDB0.
    destruct coded1 as [| m0 coded1]; [discriminate |].
    cbn in HDB0. injection HDB0 as ->. reflexivity.
Qed.

(** Where the scan stops after the separator, the data block is zero
    padding, separator and the rest. *)
Lemma scan_separator_inv DB : forall j salt_offset,
  0 <= j -> j + size DB < 2 ^ 64 ->
  scan_separator DB j = Some salt_offset -> salt_offset <> 0 ->
  exists sep,
    salt_offset = j + Z.of_nat sep + 1
    /\ DB = replicate sep x00 ++ x01 :: drop (S sep) DB.
Proof.
  induction DB as [| b DB IH]; intros j salt_offset Hj Hbound Hscan Hoff;
    cbn [scan_separator] in Hscan.
  - congruence.
  - rewrite size_cons in Hbound. pose proof (size_nonneg DB).
    unfold SizeT.add in Hscan. rewrite wrap_small in Hscan by lia.
    destruct (decide (b = x01)) as [-> | Hb1].
    + rewrite bool_decide_true in Hscan by reflexivity. injection Hscan as <-.
      exists 0%nat. split; [lia | reflexivity].
    + rewrite bool_decide_false in Hscan by assumption.
      destruct (decide (b = x00)) as [-> | Hb0];
        [rewrite bool_decide_true in Hscan by reflexivity
        | rewrite bool_decide_false in Hscan by assumption; discriminate].
      destruct (IH (j + 1) salt_offset) as (sep & -> & HDB); [lia.. | assumption | assumption |].
      exists (S sep). split; [lia |].
      cbn [replicate app drop]. now rewrite <- HDB.
Qed.

Lemma clear_top_app n (v w : list byte) :
  v <> [] -> clear_top n (v ++ w) = clear_top n v ++ w.
Proof. now destruct v. Qed.

(** What the second part of [pss_verify] has established when it accepts:
    the data block is zero padding, separator and a salt, and the digest
    field is the hash of the padded message with that salt. *)
Lemma pss_verify_check_accepts (DB H : list byte) DB_size message_hash out h stored h' :
  size DB = DB_size -> length H = output_length ->
  size (DB ++ H ++ [xbc]) < 2 ^ 64 ->
  pss_verify_check (DB ++ H ++ [xbc]) DB_size message_hash out h
  = (Returns (true, stored), h') ->
  exists sep salt,
    DB = replicate sep x00 ++ x01 :: salt
    /\ H = digest (buffered h ++ replicate 8 x00 ++ message_hash ++ salt)
    /\ stored = (if out then Some (size salt) else None).
Proof.
  intros HsizeDB HlenH Hbound Hrun.
  rewrite !size_app in Hbound. change (size [xbc]) with 1 in Hbound.
  pose proof (size_nonneg H).
  unfold pss_verify_check in Hrun. cbv zeta in Hrun.
  rewrite (bind_lift_returns _ _ _ DB) in Hrun by (apply read_mem_prefix; lia).
  destruct (scan_separator DB 0) as [salt_offset |] eqn:Hscan; [| discriminate].
  destruct (Z.eqb_spec salt_offset 0) as [| Hoff]; [discriminate |].
  apply scan_separator_inv in Hscan as (sep & -> & HDB); [| lia.. | assumption].
  set (salt := drop (S sep) DB) in *.
  assert (Hsalt : size DB = Z.of_nat sep + 1 + size salt).
  { rewrite HDB at 1. rewrite size_app, size_cons, size_replicate. lia. }
  pose proof (size_nonneg salt).
  unfold SizeT.sub in Hrun. rewrite wrap_small in Hrun by lia.
  rewrite (bind_returns _ _ _ _ _ (hash_update_zeros_run 8 h)) in Hrun.
  rewrite (bind_returns (hash_update message_hash) _ _ tt _ eq_refl) in Hrun.
  assert (Hread : read_mem (DB ++ H ++ [xbc]) (0 + Z.of_nat sep + 1)
                    (DB_size - (0 + Z.of_nat sep + 1)) = Returns salt).
  { rewrite HDB at 1.
    rewrite (cons_middle x01), (app_assoc _ [x01] salt), <- (app_assoc _ salt).
    apply read_mem_middle.
    - rewrite size_app, size_replicate. change (size [x01]) with 1. lia.
    - lia. }
  rewrite (bind_lift_returns _ _ _ _ Hread) in Hrun.
  rewrite (bind_returns (hash_update salt) _ _ tt _ eq_refl) in Hrun.
  rewrite (bind_returns hash_final _ _ _ _ eq_refl) in Hrun.
  cbn [buffered calls] in Hrun. rewrite <- !app_assoc in Hrun.
  rewrite (bind_lift_returns _ _ _ H) in Hrun
    by (apply (read_mem_middle DB H [xbc]); unfold size in *; lia).
  injection Hrun as Hok Hstored _.
  rewrite Hok, andb_true_r in Hstored.
  unfold constant_time_compare in Hok. apply bool_decide_eq_true in Hok.
  rewrite !take_ge in Hok by (rewrite ?digest_length; lia).
  exists sep, salt. repeat split; try assumption.
  subst stored. destruct out; [f_equal; lia | reflexivity].
Qed.

(** X1. Soundness of verification against encoding: on a hash object with
    nothing buffered, a block accepted by [pss_verify] for [key_bits] is,
    once padded on the left with zero bytes to [ceil(key_bits/8)] bytes,
    exactly the block [pss_encode] returns for the same digest, the same
    number of bits and the salt recovered; the salt length reported is the
    length of that salt. *)
Theorem pss_verify_accepts_only_encodings pss_repr message_hash key_bits out stored h h' :
  buffered h = [] ->
  0 <= key_bits < 2 ^ 64 ->
  pss_verify pss_repr message_hash key_bits out h = (Returns (true, stored), h') ->
  exists salt h1,
    pss_encode message_hash salt key_bits h
    = (Returns (replicate (Z.to_nat ((key_bits + 7) / 8 - size pss_repr)) x00 ++ pss_repr),
       h1)
    /\ stored = (if out then Some (size salt) else None).
Proof.
  intros Hbuf Hkey Hrun. unfold pss_verify in Hrun.
  apply bind_inv in Hrun as (u & h1 & Hunmask & Hrun).
  destruct u as [[coded DB_size] |]; [| discriminate].
  destruct (pss_verify_unmask_shape _ _ _ _ _ _ _ Hkey Hunmask)
    as (Hfit & Hmsg & Hlen & HDBsize & Hpos
        & c0 & DB & H & masked & Hpadded & Hsize & HlenH & Hhigh & Hmask & ->).
  set (K := (key_bits + 7) / 8) in *.
  set (padded := replicate _ x00 ++ pss_repr) in *.
  assert (Htb : 0 <= top_bits key_bits <= 7) by (unfold top_bits; lia).
  (* the buffer handed on *)
  rewrite Hpadded in Hmask.
  destruct (mgf1_mask_run H (c0 :: DB) (H ++ [xbc]) DB_size h Hbuf)
    as (h2 & Hmask' & Hbuf2); [lia |].
  rewrite Hmask' in Hmask. injection Hmask as <- <-.
  set (mask := MGF1 H (length (c0 :: DB))) in *.
  assert (Hlenmask : length mask = length (c0 :: DB)) by apply length_MGF1.
  assert (Hlenxor : length (xor_buf (c0 :: DB) mask) = length (c0 :: DB))
    by (apply xor_buf_length; lia).
  assert (Hne : xor_buf (c0 :: DB) mask <> [])
    by (intros Hnil; rewrite Hnil in Hlenxor; discriminate).
  rewrite (clear_top_app _ _ _ Hne) in Hrun.
  set (U := clear_top (top_bits key_bits) (xor_buf (c0 :: DB) mask)) in *.
  assert (HlenU : length U = length (c0 :: DB))
    by (unfold U; now rewrite length_clear_top).
  (* separator, salt and digest *)
  apply pss_verify_check_accepts in Hrun as (sep & salt & HU & HH & Hstored);
    [| unfold size in *; lia | assumption
     | rewrite !size_app; unfold size in *; cbn [length] in *; lia].
  rewrite Hbuf2 in HH. cbn [app] in HH.
  assert (HsizeU : size U = Z.of_nat sep + 1 + size salt).
  { rewrite HU. rewrite size_app, size_cons, size_replicate. lia. }
  pose proof (size_nonneg salt) as Hsalt.
  assert (Hfloor : 8 * Z.of_nat output_length + 8 * size salt + 9 <= key_bits).
  { assert (K = size U + Z.of_nat output_length + 1) by (unfold size in *; lia).
    subst K. lia. }
  (* the encoder on the recovered salt *)
  destruct (pss_encode_run message_hash salt key_bits h Hmsg Hfloor Hfit)
    as (h3 & Hencode & _).
  rewrite Hbuf in Hencode. cbn [app] in Hencode. rewrite <- HH in Hencode.
  assert (HDBspec : pss_DB salt key_bits = U).
  { unfold pss_DB. fold K. rewrite HU. do 2 f_equal. unfold size in *. lia. }
  rewrite HDBspec, HlenU in Hencode. fold mask in Hencode.
  assert (Hback : clear_top (top_bits key_bits) (xor_buf U mask) = c0 :: DB).
  { unfold U. apply mask_unmask_clear_top; [lia | | cbn [length] in *; lia].
    apply and_ff_shr_id; lia. }
  rewrite Hback, <- Hpadded in Hencode.
  now exists salt, h3.
Qed.

End Accepted.

(** ** Blocks as integers *)

Lemma be_value_acc (v : list byte) : forall acc,
  fold_left (fun a b => a * 256 + byte.unsigned b) v acc
  = acc * 256 ^ size v + be_value v.
Proof.
  unfold be_value.
  induction v as [| b v IH]; intros acc; cbn [fold_left].
  - change (size []) with 0. lia.
  - rewrite IH, (IH (0 * 256 + _)). rewrite size_cons.
    pose proof (size_nonneg v).
    rewrite Z.pow_add_r, Z.pow_1_r by lia. lia.
Qed.

Lemma be_value_cons b (v : list byte) :
  be_value (b :: v) = byte.unsigned b * 256 ^ size v + be_value v.
Proof. unfold be_value at 1. cbn [fold_left]. rewrite be_value_acc. lia. Qed.

Lemma be_value_range (v : list byte) : 0 <= be_value v < 256 ^ size v.
Proof.
  induction v as [| b v IH].
  - change (be_value []) with 0. change (size []) with 0. lia.
  - rewrite be_value_cons, size_cons. pose proof (size_nonneg v).
    pose proof (byte.unsigned_range b).
    rewrite Z.pow_add_r, Z.pow_1_r by lia. nia.
Qed.

Lemma pow_256 n : 0 <= n -> 256 ^ n = 2 ^ (8 * n).
Proof. intros Hn. change 256 with (2 ^ 8). now rewrite <- Z.pow_mul_r by lia. Qed.

Section Values.
Context {HA : HashAlgorithm}.

(** X3. The block returned by [pss_encode], read as an unsigned integer with
    the most significant byte first, is below [2 ^ output_bits]: it fits
    the number of bits the caller asked for. *)
Theorem pss_encode_value_bound msg salt output_bits h :
  size msg = Z.of_nat output_length ->
  8 * Z.of_nat output_length + 8 * size salt + 9 <= output_bits ->
  output_bits + 7 < 2 ^ 64 ->
  exists EM h',
    pss_encode msg salt output_bits h = (Returns EM, h')
    /\ 0 <= be_value EM < 2 ^ output_bits.
Proof.
  intros Hmsg Hfloor Hrep.
  destruct (pss_encode_run msg salt output_bits h Hmsg Hfloor Hrep)
    as (h' & Hencode & _).
  pose proof (size_pss_DB salt output_bits Hfloor) as HsizeDB.
  pose proof (size_nonneg salt) as Hsalt.
  set (H := digest _) in *. set (DB := pss_DB salt output_bits) in *.
  assert (HlenH : length H = output_length) by apply digest_length.
  set (X := xor_buf DB (MGF1 H (length DB))) in *.
  assert (HlenX : length X = length DB)
    by (apply xor_buf_length; now rewrite length_MGF1).
  eexists _, h'. split; [exact Hencode |].
  split; [apply be_value_range |].
  destruct X as [| x0 X].
  { cbn [length] in HlenX. unfold size in HsizeDB. lia. }
  cbn [clear_top app]. rewrite be_value_cons.
  set (rest := X ++ H ++ [xbc]).
  assert (Hrest : size rest = (output_bits + 7) / 8 - 1).
  { unfold rest. rewrite !size_app. unfold size in *. cbn [length] in *. lia. }
  assert (Htb : 0 <= top_bits output_bits <= 7) by (unfold top_bits; lia).
  pose proof (and_ff_shr_bound x0 (top_bits output_bits) ltac:(lia)) as Hb0.
  pose proof (be_value_range rest) as Hr.
  rewrite Hrest, pow_256 in * by lia.
  replace output_bits
    with ((8 - top_bits output_bits) + 8 * ((output_bits + 7) / 8 - 1)) at 3
    by (unfold top_bits; lia).
  rewrite Z.pow_add_r by lia.
  set (P := 2 ^ (8 * _)) in *. set (Q := 2 ^ (8 - _)) in *.
  nia.
Qed.

(** X2. A block that, read as an unsigned integer, is not below
    [2 ^ key_bits] is rejected by [pss_verify] before any hashing,
    whatever its length. *)
Theorem pss_verify_value_too_large pss_repr message_hash key_bits out h :
  0 <= key_bits < 2 ^ 64 ->
  2 ^ key_bits <= be_value pss_repr ->
  pss_verify pss_repr message_hash key_bits out h = (Returns (false, None), h).
Proof.
  intros Hkey Hvalue. apply pss_verify_early.
  unfold pss_verify_unmask. cbv zeta.
  pose proof (key_bytes_range key_bits) as Hkb.
  destruct (key_bits <? _); [reflexivity |].
  destruct (negb _); [reflexivity |].
  destruct (_ || _) eqn:Hlen; [reflexivity |].
  apply orb_false_iff in Hlen as [Hle Hgt].
  apply Z.ltb_ge in Hle. apply Z.leb_gt in Hgt.
  assert (Hfit : key_bits + 7 < 2 ^ 64).
  { destruct (Z.lt_ge_cases (key_bits + 7) (2 ^ 64)) as [| Hwrap]; [assumption |].
    assert ((key_bits +w 7) / 8 = 0)
      by (unfold SizeT.add, SizeT.wrap, SizeT.modulus; lia).
    lia. }
  assert (HK : (key_bits +w 7) / 8 = (key_bits + 7) / 8)
    by (unfold SizeT.add; now rewrite wrap_small by lia).
  rewrite HK in *. clear HK. set (K := (key_bits + 7) / 8) in *.
  assert (Htop : 8 *w K -w key_bits = top_bits key_bits).
  { unfold SizeT.mul, SizeT.sub, top_bits. fold K.
    rewrite (wrap_small (8 * K)) by lia. apply wrap_small. subst K. lia. }
  rewrite Htop.
  assert (Htb : 0 <= top_bits key_bits <= 7 /\ key_bits = 8 * K - top_bits key_bits)
    by (unfold top_bits; fold K; subst K; lia).
  destruct Htb as [Htb Hbits].
  (* a shorter block is too small to reach [2 ^ key_bits] *)
  pose proof (be_value_range pss_repr) as Hrange.
  assert (Hfull : size pss_repr = K).
  { destruct (Z.eq_dec (size pss_repr) K) as [| Hne]; [assumption | exfalso].
    assert (256 ^ size pss_repr <= 2 ^ key_bits); [| lia].
    rewrite pow_256 by lia. apply Z.pow_le_mono_r; lia. }
  unfold SizeT.sub at 1. rewrite wrap_small by lia.
  destruct (vec_get_defined pss_repr (size pss_repr - 1)) as [tr Htr]; [lia |].
  rewrite (bind_lift_returns _ _ _ _ Htr).
  destruct (negb _); [reflexivity |].
  replace (size pss_repr <? K) with false by lia. rewrite bind_ret.
  destruct pss_repr as [| b rest]; [change (size []) with 0 in Hgt; lia |].
  rewrite (bind_lift_returns _ _ _ _ (vec_get_head b rest)).
  (* the first byte has a bit set among the masked ones *)
  rewrite be_value_cons in Hvalue. rewrite size_cons in Hfull.
  pose proof (be_value_range rest) as Hr. pose proof (size_nonneg rest).
  pose proof (byte.unsigned_range b) as Hb.
  assert (Hbig : 2 ^ (8 - top_bits key_bits) <= byte.unsigned b).
  { rewrite pow_256 in * by lia.
    replace key_bits with ((8 - top_bits key_bits) + 8 * size rest) in Hvalue at 1 by lia.
    rewrite Z.pow_add_r in Hvalue by lia.
    set (P := 2 ^ (8 * _)) in *. set (Q := 2 ^ (8 - _)) in *.
    assert (0 < P) by (apply Z.pow_pos_nonneg; lia).
    nia. }
  assert (Hhigh : 8 - top_bits key_bits < high_bit b).
  { unfold high_bit.
    assert (0 < 2 ^ (8 - top_bits key_bits)) by (apply Z.pow_pos_nonneg; lia).
    destruct (Z.eqb_spec (byte.unsigned b) 0); [lia |].
    assert (8 - top_bits key_bits <= Z.log2 (byte.unsigned b))
      by (apply Z.log2_le_pow2; lia).
    lia. }
  pose proof (high_bit_range b).
  unfold SizeT.sub. rewrite wrap_small by lia.
  now replace (_ <? top_bits key_bits) with true by lia.
Qed.

End Values.

(** ** The adapters as a whole *)

Section Engines.
Context {HA : HashAlgorithm}.

Lemma pssr_on_m_hash_run {A} (m : M HashFunction A) (this : PSSR.t) o h' :
  m (PSSR.m_hash this) = (o, h') ->
  PSSR.on_m_hash m this
  = (o, {| PSSR.m_hash := h'; PSSR.m_salt_size := PSSR.m_salt_size this;
           PSSR.m_required_salt_len := PSSR.m_required_salt_len this |}).
Proof. intros Hm. unfold PSSR.on_m_hash. now rewrite Hm. Qed.

Lemma pssr_raw_on_m_hash_run {A} (m : M HashFunction A) (this : PSSR_Raw.t) o h' :
  m (PSSR_Raw.m_hash this) = (o, h') ->
  PSSR_Raw.on_m_hash m this
  = (o, {| PSSR_Raw.m_hash := h'; PSSR_Raw.m_salt_size := PSSR_Raw.m_salt_size this;
           PSSR_Raw.m_required_salt_len := PSSR_Raw.m_required_salt_len this;
           PSSR_Raw.m_msg := PSSR_Raw.m_msg this |}).
Proof. intros Hm. unfold PSSR_Raw.on_m_hash. now rewrite Hm. Qed.

Lemma pssr_raw_data_run (this : PSSR.t) :
  PSSR.raw_data this
  = (Returns (digest (buffered (PSSR.m_hash this))),
     {| PSSR.m_hash := {| buffered := []; calls := S (calls (PSSR.m_hash this)) |};
        PSSR.m_salt_size := PSSR.m_salt_size this;
        PSSR.m_required_salt_len := PSSR.m_required_salt_len this |}).
Proof. reflexivity. Qed.

(** The round trip of [pss_encode] and [pss_verify] with the states in
    between. *)
Lemma pss_encode_then_verify msg salt output_bits out h :
  buffered h = [] ->
  size msg = Z.of_nat output_length ->
  8 * Z.of_nat output_length + 8 * size salt + 9 <= output_bits ->
  output_bits + 7 < 2 ^ 64 ->
  exists EM h1 h2,
    pss_encode msg salt output_bits h = (Returns EM, h1)
    /\ pss_verify EM msg output_bits out h1
       = (Returns (true, if out then Some (size salt) else None), h2)
    /\ buffered h2 = [].
Proof.
  intros Hbuf Hmsg Hfloor Hrep.
  pose proof (size_nonneg salt) as Hsalt.
  destruct (pss_encode_run msg salt output_bits h Hmsg Hfloor Hrep)
    as (h1 & Hencode & Hbuf1).
  rewrite Hbuf in Hencode. cbn [app] in Hencode. fold (pss_H msg salt) in Hencode.
  pose proof (size_pss_DB salt output_bits Hfloor) as HsizeDB.
  unfold pss_DB in Hencode, HsizeDB.
  set (sep := Z.to_nat ((output_bits + 7) / 8 - Z.of_nat output_length - size salt - 2))
    in *.
  destruct (pss_verify_unmask_run msg salt sep output_bits h1 Hbuf1 Hmsg)
    as (h2 & Hunmask & Hbuf2); [lia | lia | lia |].
  destruct (pss_verify_check_run msg salt sep out h2 Hbuf2) as (h3 & Hcheck & Hbuf3);
    [lia |].
  eexists _, h1, h3. split; [exact Hencode |]. split; [| assumption].
  unfold pss_verify. rewrite (bind_returns _ _ _ _ _ Hunmask). exact Hcheck.
Qed.

(** *** Feeding the message in pieces *)

Lemma pssr_update_all chunks : forall this : PSSR.t,
  for_each PSSR.update chunks this
  = (Returns tt,
     {| PSSR.m_hash :=
          {| buffered := buffered (PSSR.m_hash this) ++ concat chunks;
             calls := (length chunks + calls (PSSR.m_hash this))%nat |};
        PSSR.m_salt_size := PSSR.m_salt_size this;
        PSSR.m_required_salt_len := PSSR.m_required_salt_len this |}).
Proof.
  induction chunks as [| c chunks IH]; intros this; cbn [for_each concat].
  - unfold ret. rewrite app_nil_r. now destruct this as [[? ?] ? ?].
  - unfold bind, PSSR.update, PSSR.on_m_hash, hash_update. rewrite IH.
    cbn. rewrite <- app_assoc. do 4 f_equal. lia.
Qed.

Lemma pssr_raw_update_all chunks : forall this : PSSR_Raw.t,
  for_each PSSR_Raw.update chunks this
  = (Returns tt,
     {| PSSR_Raw.m_hash := PSSR_Raw.m_hash this;
        PSSR_Raw.m_salt_size := PSSR_Raw.m_salt_size this;
        PSSR_Raw.m_required_salt_len := PSSR_Raw.m_required_salt_len this;
        PSSR_Raw.m_msg := PSSR_Raw.m_msg this ++ concat chunks |}).
Proof.
  induction chunks as [| c chunks IH]; intros this; cbn [for_each concat].
  - unfold ret. rewrite app_nil_r. now destruct this.
  - unfold bind, PSSR_Raw.update. rewrite IH. cbn. now rewrite <- app_assoc.
Qed.

(** X9. [PSSR]: however the message is cut into pieces for [update], the
    [raw_data] that follows returns the digest of what was buffered before
    followed by the pieces in order, and leaves nothing buffered: a second
    [raw_data] returns the digest of the empty message. *)
Theorem pssr_update_in_pieces (this : PSSR.t) chunks :
  exists this',
    (do for_each PSSR.update chunks then PSSR.raw_data) this
    = (Returns (digest (buffered (PSSR.m_hash this) ++ concat chunks)), this')
    /\ buffered (PSSR.m_hash this') = []
    /\ fst (PSSR.raw_data this') = Returns (digest []).
Proof.
  eexists. rewrite (bind_returns _ _ _ _ _ (pssr_update_all chunks this)).
  unfold PSSR.raw_data, PSSR.on_m_hash, hash_final. cbn [PSSR.m_hash buffered].
  repeat split.
Qed.

(** X10. [PSSR_Raw]: however the bytes are cut into pieces for [update], the
    [raw_data] that follows returns all bytes buffered, the earlier ones
    first, when their number is the output length of the hash, and throws
    otherwise; the pieces only matter through their concatenation. *)
Theorem pssr_raw_update_in_pieces (this : PSSR_Raw.t) chunks :
  let all := PSSR_Raw.m_msg this ++ concat chunks in
  fst ((do for_each PSSR_Raw.update chunks then PSSR_Raw.raw_data) this)
  = (if size all =? Z.of_nat output_length
     then Returns all
     else Throws (Encoding_Error "PSSR_Raw Bad input length, did not match hash"))
  /\ PSSR_Raw.m_msg (snd ((do for_each PSSR_Raw.update chunks then PSSR_Raw.raw_data) this))
     = [].
Proof.
  intros all.
  rewrite (bind_returns _ _ _ _ _ (pssr_raw_update_all chunks this)).
  rewrite pssr_raw_raw_data_run. cbn [fst snd PSSR_Raw.m_msg]. now split.
Qed.

(** *** Signing and verifying with one engine *)

(** X7. [PSSR], the whole path: on an engine whose hash object has nothing
    buffered and whose random source returns as many bytes as it is asked
    for, feeding a message in pieces, taking [raw_data], encoding it and
    verifying the result with the same engine returns [true], whether or not
    the engine requires a salt length; the engine is left with nothing
    buffered and its configuration unchanged. *)
Theorem pssr_sign_then_verify (this : PSSR.t) chunks output_bits random_vec :
  buffered (PSSR.m_hash this) = [] ->
  size (random_vec (PSSR.m_salt_size this)) = PSSR.m_salt_size this ->
  8 * Z.of_nat output_length + 8 * PSSR.m_salt_size this + 9 <= output_bits ->
  output_bits + 7 < 2 ^ 64 ->
  exists this',
    (do for_each PSSR.update chunks then
     let* raw := PSSR.raw_data in
     let* EM := PSSR.encoding_of raw output_bits random_vec in
     PSSR.verify EM raw output_bits) this
    = (Returns true, this')
    /\ buffered (PSSR.m_hash this') = []
    /\ PSSR.m_salt_size this' = PSSR.m_salt_size this
    /\ PSSR.m_required_salt_len this' = PSSR.m_required_salt_len this.
Proof.
  intros Hbuf Hrng Hfloor Hrep.
  rewrite (bind_returns _ _ _ _ _ (pssr_update_all chunks this)).
  rewrite (bind_returns _ _ _ _ _ (pssr_raw_data_run _)).
  cbn [PSSR.m_hash PSSR.m_salt_size PSSR.m_required_salt_len buffered calls].
  rewrite Hbuf. cbn [app].
  set (raw := digest (concat chunks)).
  assert (Hraw : size raw = Z.of_nat output_length)
    by (unfold size, raw; now rewrite digest_length).
  set (h0 := {| buffered := []; calls := _ |}).
  set (salt := random_vec (PSSR.m_salt_size this)) in *.
  destruct (pss_encode_then_verify raw salt output_bits true h0)
    as (EM & h1 & h2 & Hencode & Hverify & Hbuf2); [reflexivity | assumption | lia | assumption |].
  erewrite bind_returns
    by (unfold PSSR.encoding_of; cbn [PSSR.m_salt_size];
        apply pssr_on_m_hash_run; exact Hencode).
  cbn [PSSR.m_hash PSSR.m_salt_size PSSR.m_required_salt_len].
  unfold PSSR.verify.
  erewrite bind_returns by (apply pssr_on_m_hash_run; exact Hverify).
  cbn [fst snd PSSR.m_salt_size PSSR.m_required_salt_len].
  rewrite Hrng, Z.eqb_refl, andb_false_r.
  eexists. repeat split. assumption.
Qed.

(** X8. [PSSR_Raw], the whole path: on an engine with an empty message
    buffer, a hash object with nothing buffered and a random source that
    returns as many bytes as it is asked for, feeding a digest of the right
    length in pieces, taking [raw_data], encoding it and verifying the result
    with the same engine returns [true]; the engine is left with an empty
    message buffer and nothing buffered in its hash object. *)
Theorem pssr_raw_sign_then_verify (this : PSSR_Raw.t) chunks output_bits random_vec :
  PSSR_Raw.m_msg this = [] ->
  buffered (PSSR_Raw.m_hash this) = [] ->
  size (concat chunks) = Z.of_nat output_length ->
  size (random_vec (PSSR_Raw.m_salt_size this)) = PSSR_Raw.m_salt_size this ->
  8 * Z.of_nat output_length + 8 * PSSR_Raw.m_salt_size this + 9 <= output_bits ->
  output_bits + 7 < 2 ^ 64 ->
  exists this',
    (do for_each PSSR_Raw.update chunks then
     let* raw := PSSR_Raw.raw_data in
     let* EM := PSSR_Raw.encoding_of raw output_bits random_vec in
     PSSR_Raw.verify EM raw output_bits) this
    = (Returns true, this')
    /\ PSSR_Raw.m_msg this' = []
    /\ buffered (PSSR_Raw.m_hash this') = [].
Proof.
  intros Hmsg Hbuf Hraw Hrng Hfloor Hrep.
  rewrite (bind_returns _ _ _ _ _ (pssr_raw_update_all chunks this)).
  rewrite Hmsg. cbn [app].
  set (raw := concat chunks) in *.
  rewrite (bind_returns PSSR_Raw.raw_data _ _ raw)
    with (s' := {| PSSR_Raw.m_hash := PSSR_Raw.m_hash this;
                   PSSR_Raw.m_salt_size := PSSR_Raw.m_salt_size this;
                   PSSR_Raw.m_required_salt_len := PSSR_Raw.m_required_salt_len this;
                   PSSR_Raw.m_msg := [] |})
    by (rewrite pssr_raw_raw_data_run; cbn [PSSR_Raw.m_msg PSSR_Raw.m_hash
          PSSR_Raw.m_salt_size PSSR_Raw.m_required_salt_len];
        now rewrite Hraw, Z.eqb_refl).
  set (salt := random_vec (PSSR_Raw.m_salt_size this)) in *.
  destruct (pss_encode_then_verify raw salt output_bits true (PSSR_Raw.m_hash this))
    as (EM & h1 & h2 & Hencode & Hverify & Hbuf2); [assumption | assumption | lia | assumption |].
  erewrite bind_returns
    by (unfold PSSR_Raw.encoding_of; cbn [PSSR_Raw.m_salt_size];
        apply pssr_raw_on_m_hash_run; exact Hencode).
  cbn [PSSR_Raw.m_hash PSSR_Raw.m_salt_size PSSR_Raw.m_required_salt_len PSSR_Raw.m_msg].
  unfold PSSR_Raw.verify.
  erewrite bind_returns by (apply pssr_raw_on_m_hash_run; exact Hverify).
  cbn [fst snd PSSR_Raw.m_salt_size PSSR_Raw.m_required_salt_len].
  rewrite Hrng, Z.eqb_refl, andb_false_r.
  eexists. repeat split. assumption.
Qed.

(** *** Blocks that lost their leading zero bytes *)

(** Verification pads a short block before it looks at it. *)
Lemma pss_verify_padded pss_repr message_hash key_bits out h :
  0 <= key_bits < 2 ^ 64 ->
  1 < size pss_repr <= (key_bits + 7) / 8 ->
  pss_verify
    (replicate (Z.to_nat ((key_bits + 7) / 8 - size pss_repr)) x00 ++ pss_repr)
    message_hash key_bits out h
  = pss_verify pss_repr message_hash key_bits out h.
Proof.
  intros Hkey Hlen.
  set (padded := replicate _ x00 ++ pss_repr).
  assert (Hpadded : size padded = (key_bits + 7) / 8).
  { unfold padded. rewrite size_app, size_replicate. lia. }
  enough (Hunmask : pss_verify_unmask padded message_hash key_bits h
                    = pss_verify_unmask pss_repr message_hash key_bits h).
  { unfold pss_verify, bind. now rewrite Hunmask. }
  unfold pss_verify_unmask. cbv zeta.
  destruct (key_bits <? _); [reflexivity |].
  destruct (negb _); [reflexivity |].
  destruct (Z.lt_ge_cases (key_bits + 7) (2 ^ 64)) as [Hfit | Hwrap].
  - (* the byte count is representable *)
    size_t. set (K := (key_bits + 7) / 8) in *.
    replace (K <? size padded) with false by lia.
    replace (size padded <=? 1) with false by lia.
    replace (K <? size pss_repr) with false by lia.
    replace (size pss_repr <=? 1) with false by lia.
    replace (size padded <? K) with false by lia.
    cbn [orb].
    rewrite !vec_get_last by lia.
    assert (Hlast : last padded = last pss_repr).
    { unfold padded. rewrite last_app.
      destruct (last pss_repr) eqn:E; [reflexivity |].
      apply last_None in E. rewrite E in Hlen.
      change (size []) with 0 in Hlen. lia. }
    rewrite Hlast.
    destruct (last pss_repr) as [b |]; [| reflexivity].
    rewrite !(bind_lift_returns _ _ _ b eq_refl).
    destruct (negb _); [reflexivity |].
    rewrite bind_ret.
    destruct (Z.ltb_spec (size pss_repr) K) as [Hshort | Hfull].
    + pose proof (buffer_insert_zero_vector K pss_repr ltac:(lia)) as Hinsert.
      rewrite (bind_lift_returns _ _ _ _ Hinsert). reflexivity.
    + rewrite bind_ret. unfold padded.
      replace (Z.to_nat _) with 0%nat by lia. reflexivity.
  - (* [key_bits + 7] wraps around: every block is too long *)
    assert (Hzero : (key_bits +w 7) / 8 = 0).
    { unfold SizeT.add, SizeT.wrap, SizeT.modulus. lia. }
    rewrite Hzero.
    replace (0 <? size padded) with true by lia.
    replace (0 <? size pss_repr) with true by lia.
    reflexivity.
Qed.

(** X6. An encoded block survives the loss of leading zero bytes: if the
    block returned by [pss_encode] starts with zero bytes, as happens when
    it went through an integer, the block without them is accepted by
    [pss_verify] for the same number of bits, provided more than one byte is
    left. *)
Theorem pss_verify_stripped_block msg salt output_bits out h k rest h1 :
  buffered h = [] ->
  size msg = Z.of_nat output_length ->
  8 * Z.of_nat output_length + 8 * size salt + 9 <= output_bits ->
  output_bits + 7 < 2 ^ 64 ->
  pss_encode msg salt output_bits h = (Returns (replicate k x00 ++ rest), h1) ->
  1 < size rest ->
  exists h2,
    pss_verify rest msg output_bits out h1
    = (Returns (true, if out then Some (size salt) else None), h2).
Proof.
  intros Hbuf Hmsg Hfloor Hrep Hencode Hrest.
  pose proof (size_nonneg salt) as Hsalt.
  destruct (pss_encode_then_verify msg salt output_bits out h Hbuf Hmsg Hfloor Hrep)
    as (EM & h1' & h2 & Hencode' & Hverify & _).
  rewrite Hencode in Hencode'. injection Hencode' as <- <-.
  (* the block has the full number of bytes *)
  assert (Hsize : size (replicate k x00 ++ rest) = (output_bits + 7) / 8).
  { destruct (pss_encode_run msg salt output_bits h Hmsg Hfloor Hrep)
      as (h3 & Hrun & _).
    rewrite Hencode in Hrun. injection Hrun as -> _.
    pose proof (size_pss_DB salt output_bits Hfloor) as HsizeDB.
    rewrite !size_app. unfold size at 1 2 3. cbn [length].
    rewrite length_clear_top, xor_buf_length, digest_length
      by now rewrite length_MGF1.
    unfold size in HsizeDB. lia. }
  rewrite size_app, size_replicate in Hsize.
  exists h2. rewrite <- Hverify.
  replace k with (Z.to_nat ((output_bits + 7) / 8 - size rest)) by lia.
  symmetry. apply pss_verify_padded; lia.
Qed.

(** *** What a failed or finished call leaves behind *)


(** X12. [PSSR_Raw] keeps its hash object clean: if nothing is buffered in
    the hash object, nothing is buffered in it after [update], after
    [raw_data] (returning or throwing), after [encoding_of] (returning or
    throwing) and after a [verify] that returns.  The engine can thus be used
    for one message after the other. *)
Theorem pssr_raw_hash_stays_clean (this : PSSR_Raw.t) :
  buffered (PSSR_Raw.m_hash this) = [] ->
  (forall input, buffered (PSSR_Raw.m_hash (snd (PSSR_Raw.update input this))) = [])
  /\ buffered (PSSR_Raw.m_hash (snd (PSSR_Raw.raw_data this))) = []
  /\ (forall msg output_bits random_vec o this',
        PSSR_Raw.encoding_of msg output_bits random_vec this = (o, this') ->
        o <> Undefined -> buffered (PSSR_Raw.m_hash this') = [])
  /\ (forall coded raw key_bits ok this',
        PSSR_Raw.verify coded raw key_bits this = (Returns ok, this') ->
        buffered (PSSR_Raw.m_hash this') = []).
Proof.
  intros Hbuf. split; [| split; [| split]].
  - intros input. exact Hbuf.
  - rewrite pssr_raw_raw_data_run. exact Hbuf.
  - intros msg output_bits random_vec o this' Hrun Hdef.
    unfold PSSR_Raw.encoding_of, PSSR_Raw.on_m_hash in Hrun.
    destruct (pss_encode _ _ _ _) as [o' h'] eqn:Hencode.
    injection Hrun as -> <-. cbn [PSSR_Raw.m_hash].
    destruct (pss_encode_state _ _ _ _ _ _ Hencode) as [Hthrow Hret].
    destruct o as [EM | e |]; [now apply (Hret EM) | | congruence].
    now rewrite (Hthrow e eq_refl).
  - intros coded raw key_bits ok this' Hrun.
    unfold PSSR_Raw.verify in Hrun.
    apply bind_inv in Hrun as (r & this1 & Hverify & Hrun).
    unfold PSSR_Raw.on_m_hash in Hverify.
    destruct (pss_verify _ _ _ _ _) as [o h'] eqn:Hpss.
    injection Hverify as -> <-.
    assert (Hstate : buffered h' = []).
    { destruct (pss_verify_state _ _ _ _ _ _ _ Hpss) as [[-> | Hh'] _]; assumption. }
    cbn [PSSR_Raw.m_required_salt_len PSSR_Raw.m_salt_size] in Hrun.
    destruct (_ && _); injection Hrun as _ <-; exact Hstate.
Qed.

(** *** The salt length an engine can accept *)

(** The value stored through [out_salt_size]: a store happens only for an
    accepted block, and what is stored leaves room for the separator. *)
Lemma pss_verify_check_stored coded DB_size message_hash out h ok stored h' :
  0 <= DB_size <= size coded -> size coded < 2 ^ 64 ->
  pss_verify_check coded DB_size message_hash out h = (Returns (ok, stored), h') ->
  ok = true ->
  stored = None /\ out = false
  \/ exists s, stored = Some s /\ out = true /\ 0 <= s <= DB_size - 1.
Proof.
  intros Hsize Hbound Hrun Hok. unfold pss_verify_check in Hrun. cbv zeta in Hrun.
  destruct (read_mem_defined coded 0 DB_size) as (DB & HDB & HsizeDB); [lia.. |].
  rewrite (bind_lift_returns _ _ _ _ HDB) in Hrun.
  destruct (scan_separator DB 0) as [salt_offset |] eqn:Hscan;
    [| injection Hrun as <- _ _; discriminate].
  destruct (Z.eqb_spec salt_offset 0) as [| Hoff];
    [injection Hrun as <- _ _; discriminate |].
  apply scan_separator_range in Hscan; [| lia..].
  unfold SizeT.sub in Hrun. rewrite wrap_small in Hrun by lia.
  apply bind_inv in Hrun as (_ & h2 & _ & Hrun).
  apply bind_inv in Hrun as (_ & h3 & _ & Hrun).
  apply bind_inv in Hrun as (salt & h4 & _ & Hrun).
  apply bind_inv in Hrun as (_ & h5 & _ & Hrun).
  apply bind_inv in Hrun as (H2 & h6 & _ & Hrun).
  apply bind_inv in Hrun as (H & h7 & _ & Hrun).
  injection Hrun as Hcmp Hstored _.
  rewrite Hcmp, Hok, andb_true_r in Hstored. subst stored.
  destruct out; [right | now left].
  eexists. repeat split; lia.
Qed.

Lemma pss_verify_accepted_salt pss_repr message_hash key_bits stored h h' :
  0 <= key_bits < 2 ^ 64 ->
  pss_verify pss_repr message_hash key_bits true h = (Returns (true, stored), h') ->
  exists s, stored = Some s /\ 0 <= s
            /\ 8 * Z.of_nat output_length + 8 * s + 9 <= key_bits.
Proof.
  intros Hkey Hrun. unfold pss_verify in Hrun.
  apply bind_inv in Hrun as (u & h1 & Hunmask & Hrun).
  destruct u as [[coded DB_size] |]; [| discriminate].
  destruct (pss_verify_unmask_shape _ _ _ _ _ _ _ Hkey Hunmask)
    as (Hfit & _ & _ & HDBsize & Hpos & _).
  apply pss_verify_unmask_inv in Hunmask as (_ & Hfield & Hbound).
  apply pss_verify_check_stored in Hrun; [| lia | lia | reflexivity].
  destruct Hrun as [[_ Hout] | (s & -> & _ & Hs)]; [discriminate |].
  exists s. repeat split; lia.
Qed.

(** X13. A required salt length that does not fit the key: on an engine that
    requires salts of [m_salt_size] bytes, [PSSR::verify] never returns
    [true] for a key size below [8*HASH_SIZE + 8*m_salt_size + 9] bits, the
    floor [pss_encode] enforces for such a salt. *)
Theorem pssr_verify_salt_does_not_fit (this : PSSR.t) coded raw key_bits ok this' :
  0 <= key_bits < 2 ^ 64 ->
  PSSR.m_required_salt_len this = true ->
  key_bits < 8 * Z.of_nat output_length + 8 * PSSR.m_salt_size this + 9 ->
  PSSR.verify coded raw key_bits this = (Returns ok, this') ->
  ok = false.
Proof.
  intros Hkey Hreq Hlow Hrun. unfold PSSR.verify in Hrun.
  apply bind_inv in Hrun as ([okv stored] & this1 & Hverify & Hrun).
  unfold PSSR.on_m_hash in Hverify.
  destruct (pss_verify _ _ _ _ _) as [o h'] eqn:Hpss.
  injection Hverify as -> _.
  cbn [fst snd] in Hrun. rewrite Hreq in Hrun. cbn [andb] in Hrun.
  destruct (Z.eqb_spec (match stored with Some v => v | None => 0 end)
              (PSSR.m_salt_size this)) as [Hsame | _];
    [| now injection Hrun as <- _].
  cbn [negb] in Hrun. injection Hrun as <- _.
  destruct okv; [exfalso | reflexivity].
  apply pss_verify_accepted_salt in Hpss as (s & -> & _ & Hfloor); [| assumption].
  lia.
Qed.

(** *** Names *)

Lemma string_length_app (a b : string) :
  String.length (a +:+ b) = (String.length a + String.length b)%nat.
Proof. induction a as [| c a IH]; simpl; [reflexivity | now rewrite IH]. Qed.

Lemma string_app_inj_r (c : string) : forall a b, a +:+ c = b +:+ c -> a = b.
Proof.
  induction a as [| x a IH]; intros [| y b] Heq; simpl in Heq.
  - reflexivity.
  - apply (f_equal String.length) in Heq. simpl in Heq.
    rewrite !string_length_app in Heq. simpl in Heq. lia.
  - apply (f_equal String.length) in Heq. simpl in Heq.
    rewrite !string_length_app in Heq. simpl in Heq. lia.
  - injection Heq as -> Heq. f_equal. now apply IH.
Qed.

(** X14. The name tells the variant and the salt length: the names of a
    [PSSR] and of a [PSSR_Raw] engine always differ, and for one hash
    function two [PSSR] engines (or two [PSSR_Raw] engines) with the same
    name have the same salt length. *)
Theorem name_tells_variant_and_salt_size hash_name :
  (forall hash_name' (this : PSSR.t) (other : PSSR_Raw.t),
      PSSR.name hash_name this <> PSSR_Raw.name hash_name' other)
  /\ (forall this other : PSSR.t,
        0 <= PSSR.m_salt_size this -> 0 <= PSSR.m_salt_size other ->
        PSSR.name hash_name this = PSSR.name hash_name other ->
        PSSR.m_salt_size this = PSSR.m_salt_size other)
  /\ (forall this other : PSSR_Raw.t,
        0 <= PSSR_Raw.m_salt_size this -> 0 <= PSSR_Raw.m_salt_size other ->
        PSSR_Raw.name hash_name this = PSSR_Raw.name hash_name other ->
        PSSR_Raw.m_salt_size this = PSSR_Raw.m_salt_size other).
Proof.
  split; [| split].
  - intros hash_name' this other. unfold PSSR.name, PSSR_Raw.name. discriminate.
  - intros this other Hthis Hother Hname. unfold PSSR.name in Hname.
    do 3 apply String.app_inj in Hname.
    apply string_app_inj_r in Hname. apply (inj pretty) in Hname. lia.
  - intros this other Hthis Hother Hname. unfold PSSR_Raw.name in Hname.
    do 3 apply String.app_inj in Hname.
    apply string_app_inj_r in Hname. apply (inj pretty) in Hname. lia.
Qed.

End Engines.

(** * Instances of the further properties on the toy hash *)

Section FurtherWitnesses.
#[local] Existing Instance toy_hash.

Lemma pss_verify_accepts_only_encodings_witness :
  buffered fresh_hash = []
  /\ 0 <= 57 < 2 ^ 64
  /\ pss_verify t_block_short t_msg 57 true fresh_hash
     = (Returns (true, Some 3), t_hash_verified)
  /\ exists salt h1,
       pss_encode t_msg salt 57 fresh_hash
       = (Returns (replicate (Z.to_nat ((57 + 7) / 8 - size t_block_short)) x00
                   ++ t_block_short), h1)
       /\ Some 3 = Some (size salt).
Proof.
  assert (Hrun : pss_verify t_block_short t_msg 57 true fresh_hash
                 = (Returns (true, Some 3), t_hash_verified))
    by (vm_compute; reflexivity).
  split; [reflexivity |]. split; [lia |]. split; [exact Hrun |].
  apply (pss_verify_accepts_only_encodings t_block_short t_msg 57 true (Some 3)
           fresh_hash t_hash_verified);
    [reflexivity | lia | exact Hrun].
Defined.

Lemma pss_verify_value_too_large_witness :
  0 <= 60 < 2 ^ 64
  /\ 2 ^ 60 <= be_value t_block_too_large
  /\ pss_verify t_block_too_large t_msg 60 true fresh_hash
     = (Returns (false, None), fresh_hash).
Proof.
  split; [lia |]. split; [vm_compute; discriminate |].
  apply pss_verify_value_too_large; [lia | vm_compute; discriminate].
Defined.

Lemma pss_encode_value_bound_witness :
  size t_msg = 2
  /\ 8 * 2 + 8 * size t_salt + 9 <= 60
  /\ 60 + 7 < 2 ^ 64
  /\ exists EM h',
       pss_encode t_msg t_salt 60 fresh_hash = (Returns EM, h')
       /\ 0 <= be_value EM < 2 ^ 60.
Proof.
  repeat (split; [first [reflexivity | vm_compute; discriminate] |]).
  apply (pss_encode_value_bound t_msg t_salt 60 fresh_hash);
    first [reflexivity | vm_compute; discriminate].
Defined.



Lemma pss_verify_stripped_block_witness :
  buffered fresh_hash = []
  /\ size t_msg = 2
  /\ 8 * 2 + 8 * size t_salt + 9 <= 57
  /\ 57 + 7 < 2 ^ 64
  /\ pss_encode t_msg t_salt 57 fresh_hash
     = (Returns (replicate 1 x00 ++ t_block_short), t_hash_verified)
  /\ 1 < size t_block_short
  /\ exists h2,
       pss_verify t_block_short t_msg 57 true t_hash_verified
       = (Returns (true, Some (size t_salt)), h2).
Proof.
  assert (Hrun : pss_encode t_msg t_salt 57 fresh_hash
                 = (Returns (replicate 1 x00 ++ t_block_short), t_hash_verified))
    by (vm_compute; reflexivity).
  split; [reflexivity |]. split; [reflexivity |].
  split; [vm_compute; discriminate |]. split; [reflexivity |].
  split; [exact Hrun |]. split; [reflexivity |].
  apply (pss_verify_stripped_block t_msg t_salt 57 true fresh_hash 1 t_block_short
           t_hash_verified);
    first [exact Hrun | reflexivity | vm_compute; discriminate].
Defined.

Lemma pssr_sign_then_verify_witness :
  buffered (PSSR.m_hash t_engine) = []
  /\ size (t_random_vec (PSSR.m_salt_size t_engine)) = PSSR.m_salt_size t_engine
  /\ 8 * 2 + 8 * PSSR.m_salt_size t_engine + 9 <= 60
  /\ 60 + 7 < 2 ^ 64
  /\ exists this',
       (do for_each PSSR.update t_chunks then
        let* raw := PSSR.raw_data in
        let* EM := PSSR.encoding_of raw 60 t_random_vec in
        PSSR.verify EM raw 60) t_engine
       = (Returns true, this')
       /\ buffered (PSSR.m_hash this') = []
       /\ PSSR.m_salt_size this' = PSSR.m_salt_size t_engine
       /\ PSSR.m_required_salt_len this' = PSSR.m_required_salt_len t_engine.
Proof.
  repeat (split; [first [reflexivity | vm_compute; discriminate] |]).
  apply (pssr_sign_then_verify t_engine t_chunks 60 t_random_vec);
    first [reflexivity | vm_compute; discriminate].
Defined.

Lemma pssr_raw_sign_then_verify_witness :
  PSSR_Raw.m_msg t_raw_engine = []
  /\ buffered (PSSR_Raw.m_hash t_raw_engine) = []
  /\ size (concat t_msg_chunks) = 2
  /\ size (t_random_vec (PSSR_Raw.m_salt_size t_raw_engine))
     = PSSR_Raw.m_salt_size t_raw_engine
  /\ 8 * 2 + 8 * PSSR_Raw.m_salt_size t_raw_engine + 9 <= 60
  /\ 60 + 7 < 2 ^ 64
  /\ exists this',
       (do for_each PSSR_Raw.update t_msg_chunks then
        let* raw := PSSR_Raw.raw_data in
        let* EM := PSSR_Raw.encoding_of raw 60 t_random_vec in
        PSSR_Raw.verify EM raw 60) t_raw_engine
       = (Returns true, this')
       /\ PSSR_Raw.m_msg this' = []
       /\ buffered (PSSR_Raw.m_hash this') = [].
Proof.
  repeat (split; [first [reflexivity | vm_compute; discriminate] |]).
  apply (pssr_raw_sign_then_verify t_raw_engine t_msg_chunks 60 t_random_vec);
    first [reflexivity | vm_compute; discriminate].
Defined.


Lemma pssr_raw_hash_stays_clean_witness :
  buffered (PSSR_Raw.m_hash t_raw_engine) = []
  /\ buffered (PSSR_Raw.m_hash (snd (PSSR_Raw.update t_msg t_raw_engine))) = []
  /\ buffered (PSSR_Raw.m_hash (snd (PSSR_Raw.raw_data t_raw_engine))) = []
  /\ buffered (PSSR_Raw.m_hash
                 (snd (PSSR_Raw.encoding_of t_msg 60 t_random_vec t_raw_engine))) = []
  /\ buffered (PSSR_Raw.m_hash (snd (PSSR_Raw.verify t_block t_msg 60 t_raw_engine))) = [].
Proof.
  destruct (pssr_raw_hash_stays_clean t_raw_engine eq_refl)
    as (Hupdate & Hraw & Hencode & Hverify).
  split; [reflexivity |]. split; [apply Hupdate |]. split; [exact Hraw |].
  split.
  - apply (Hencode t_msg 60 t_random_vec
             (fst (PSSR_Raw.encoding_of t_msg 60 t_random_vec t_raw_engine)));
      [apply surjective_pairing | vm_compute; discriminate].
  - apply (Hverify t_block t_msg 60 true). vm_compute. reflexivity.
Defined.

Lemma pssr_verify_salt_does_not_fit_witness :
  0 <= 40 < 2 ^ 64
  /\ PSSR.m_required_salt_len t_engine = true
  /\ 40 < 8 * 2 + 8 * PSSR.m_salt_size t_engine + 9
  /\ fst (PSSR.verify t_block_zero_DB t_msg 40 t_engine) = Returns false.
Proof.
  split; [lia |]. split; [reflexivity |]. split; [reflexivity |].
  destruct (PSSR.verify t_block_zero_DB t_msg 40 t_engine) as [o this'] eqn:Hrun.
  assert (Ho : exists ok, o = Returns ok)
    by (exists false; apply (f_equal fst) in Hrun; vm_compute in Hrun; congruence).
  destruct Ho as [ok ->]. simpl. f_equal.
  apply (pssr_verify_salt_does_not_fit t_engine t_block_zero_DB t_msg 40 ok this');
    [lia | reflexivity | reflexivity | exact Hrun].
Defined.

Lemma name_tells_variant_and_salt_size_witness :
  PSSR.name "SHA-256" t_engine = "EMSA4(SHA-256,MGF1,2)"
  /\ PSSR_Raw.name "SHA-256" t_raw_engine = "PSSR_Raw(SHA-256,MGF1,3)"
  /\ PSSR.name "SHA-256" t_engine <> PSSR_Raw.name "SHA-256" t_raw_engine
  /\ PSSR.name "SHA-256" t_engine
     <> PSSR.name "SHA-256" (PSSR.create_with_salt fresh_hash 3).
Proof.
  destruct (name_tells_variant_and_salt_size "SHA-256") as (Hvariant & Hsalt & _).
  split; [vm_compute; reflexivity |]. split; [vm_compute; reflexivity |].
  split; [apply Hvariant |].
  intros Hname.
  apply (Hsalt t_engine (PSSR.create_with_salt fresh_hash 3)) in Hname;
    [discriminate Hname | vm_compute; discriminate | vm_compute; discriminate].
Defined.

End FurtherWitnesses.
